(** * Constrained decoding engine of [anlg/run_generation.py] and the
    metric aggregator of [anlg/evaluation/eval.py]

    A shallow embedding of [top_k_top_p_filtering], [sample_sequence] and
  [QGEvalCap.evaluate], and of the drivers around them: [main] of
  [run_generation.py] with [_prompt_to_gen], and [eval], [preprocess] and
  the script of [eval.py].  Tensors are nested lists, the tensor that the
  filter overwrites lives in a store of tensor objects, Python exceptions
  are the [Raise] results of a state-and-exception monad, and the calls to
  the scoring model and to [torch.multinomial] are recorded in a trace. *)

From Stdlib Require Import ZArith QArith Lia Ascii String.
From stdpp Require Import base gmap strings list fin_maps sorting.

(** ** Exceptions and the state-and-exception monad *)

Inductive error :=
  | RuntimeError   (* torch shape and argument errors *)
  | IndexError
  | TypeError
  | ModelError.    (* raised inside the scoring model or a scorer *)

Inductive result (A : Type) :=
  | Ok (a : A)
  | Raise (e : error).
Arguments Ok {A} a.
Arguments Raise {A} e.

Definition is_ok {A} (r : result A) : bool :=
  match r with Ok _ => true | Raise _ => false end.

(** A computation reads and updates a state [W]; a raised exception keeps
  the state reached so far and skips the rest. *)
Definition M (W A : Type) : Type := W → result A * W.

Definition ret {W A} (a : A) : M W A := λ w, (Ok a, w).

Definition raise {W A} (e : error) : M W A := λ w, (Raise e, w).

Definition bind {W A B} (c : M W A) (k : A → M W B) : M W B :=
  λ w, match c w with
       | (Ok a, w') => k a w'
       | (Raise e, w') => (Raise e, w')
       end.

Definition lift {W A} (r : result A) : M W A := λ w, (r, w).

Notation "x <- c ;; k" := (bind c (λ x, k))
  (at level 100, c at next level, right associativity).
Notation "c ;;; k" := (bind c (λ _, k))
  (at level 100, right associativity).

(** ** The numeric primitives of torch

    Floating-point scalars stay abstract: the code only compares, divides and
  adds them, and hands vectors of them to [F.softmax] and
  [torch.multinomial].  [rng] is the state of torch's ambient random
  generator, which [multinomial] reads and advances. *)

Class Torch := {
  float : Type;
  fltb : float → float → bool;            (* x < y *)
  fdiv : float → float → float;           (* x / y *)
  fadd : float → float → float;           (* x + y *)
  fzero : float;                          (* 0.0 *)
  fone : float;                           (* 1.0 *)
  neg_inf : float;                        (* -float("Inf") *)
  softmax : list float → list float;      (* F.softmax(x, dim=-1) *)
  rng : Type;
  multinomial : list float → Z → rng → result (list Z) * rng;
}.

(** What the proofs use of these primitives: [<] is a strict weak order (no
  NaN among the scores), [softmax] keeps the length and returns
  non-negative numbers, adding a non-negative number never makes a sum
  smaller, and a successful [multinomial] returns as many positions as it
  was asked for. *)
Class TorchLaws (T : Torch) : Prop := {
  fltb_irrefl : ∀ x, fltb x x = false;
  fltb_trans : ∀ x y z, fltb x y = true → fltb y z = true → fltb x z = true;
  fltb_negtrans : ∀ x y z, fltb x z = true → fltb x y = true ∨ fltb y z = true;
  softmax_length : ∀ l, length (softmax l) = length l;
  softmax_nonneg : ∀ l p, p ∈ softmax l → fltb p fzero = false;
  fadd_nonneg : ∀ a p, fltb p fzero = false → fltb (fadd a p) a = false;
  multinomial_length : ∀ probs n g next_token g',
    multinomial probs n g = (Ok next_token, g') →
    length next_token = Z.to_nat n;
}.

(** ** Tensor operations on nested lists *)

Section tensors.
Context {A : Type}.

(** [t.unsqueeze(0).repeat(n, 1, ...)]: [n] copies of [t] along a new
    leading dimension; a negative count is refused by torch. *)
Definition unsqueeze_repeat (t : A) (n : Z) : result (list A) :=
  if (n <? 0)%Z then Raise RuntimeError else Ok (replicate (Z.to_nat n) t).

(** [torch.cat((a, b), dim=1)] of two 2-D tensors: the row counts must
    agree, the rows are joined pairwise. *)
Definition cat_dim1 (a b : list (list A)) : result (list (list A)) :=
  if decide (length a = length b) then Ok (zip_with app a b)
  else Raise RuntimeError.

(** [t[0, -1, :]] of a 3-D tensor. *)
Definition index_0_last (t : list (list (list A))) : result (list A) :=
  match t with
  | [] => Raise IndexError
  | b0 :: _ => match last b0 with
               | Some v => Ok v
               | None => Raise IndexError
               end
  end.

(** [t.shape[1]] of a 2-D tensor held as its list of rows. *)
Definition shape1 (t : list (list A)) : nat :=
  match t with [] => 0 | r :: _ => length r end.

(** [row[-1] = x]. *)
Definition set_last (row : list A) (x : A) : list A :=
  <[pred (length row) := x]> row.

(** [t[mask] = x] for a boolean mask of the shape of [t]. *)
Definition masked_fill (t : list A) (mask : list bool) (x : A) : list A :=
  zip_with (λ y (m : bool), if m then x else y) t mask.

(** [t[idx] = x] for a tensor [idx] of positions. *)
Definition index_fill (t : list A) (idx : list nat) (x : A) : list A :=
  foldr (λ i acc, <[i := x]> acc) t idx.

(** [idx[mask]]: the entries of [idx] where [mask] is set. *)
Fixpoint select (idx : list A) (mask : list bool) : list A :=
  match idx, mask with
  | i :: idx', m :: mask' =>
      if m then i :: select idx' mask' else select idx' mask'
  | _, _ => []
  end.

(** [mask[..., 1:] = mask[..., :-1].clone()]: every entry moves one place
    to the right, the first one stays where it is. *)
Definition shift_right (mask : list A) : list A :=
  match mask with
  | [] => []
  | m :: _ => m :: take (pred (length mask)) mask
  end.

(** [mask[..., 0] = x]; there is no position 0 in an empty tensor. *)
Definition set_first (mask : list A) (x : A) : result (list A) :=
  match mask with
  | [] => Raise IndexError
  | _ :: mask' => Ok (x :: mask')
  end.
End tensors.

(** [torch.zeros((n,))], [torch.zeros((r, n))] and [torch.zeros((b, r, n))]. *)
Definition zeros {A} (z : A) (n : nat) : list A := replicate n z.
Definition zeros2 {A} (z : A) (r n : nat) : list (list A) :=
  replicate r (zeros z n).
Definition zeros3 {A} (z : A) (b r n : nat) : list (list (list A)) :=
  replicate b (zeros2 z r n).

(** ** Sorting, top-k and cumulative sums *)

Section sorting.
Context {T : Torch}.

(** Insertion of a (position, score) pair into a list held in descending
    order of score. *)
Fixpoint insert_desc (x : nat * float) (l : list (nat * float))
  : list (nat * float) :=
  match l with
  | [] => [x]
  | y :: l' => if fltb y.2 x.2 then x :: y :: l' else y :: insert_desc x l'
  end.

(** [torch.sort(logits, descending=True)] as the list of
    (original position, score) pairs in sorted order. *)
Definition sort_desc (logits : list float) : list (nat * float) :=
  foldr insert_desc [] (zip (seq 0 (length logits)) logits).

Definition sorted_values (logits : list float) : list float :=
  (sort_desc logits).*2.

Definition sorted_positions (logits : list float) : list nat :=
  (sort_desc logits).*1.

(** The order of a descending list: the earlier score is not below the
  later one. *)
Definition not_below (a b : float) : Prop := fltb a b = false.

(** [torch.topk(logits, k)[0]]: the [k] largest scores, largest first. *)
Definition topk (logits : list float) (k : nat) : list float :=
  take k (sorted_values logits).

(** [torch.topk(logits, k)[0][..., -1, None]]. *)
Definition kth_largest (logits : list float) (k : nat) : result float :=
  match last (topk logits k) with
  | Some x => Ok x
  | None => Raise IndexError
  end.

(** [torch.cumsum(p, dim=-1)]. *)
Fixpoint cumsum_from (acc : float) (p : list float) : list float :=
  match p with
  | [] => []
  | x :: p' => let acc' := fadd acc x in acc' :: cumsum_from acc' p'
  end.

Definition cumsum (p : list float) : list float :=
  match p with
  | [] => []
  | x :: p' => x :: cumsum_from x p'
  end.


End sorting.

(** ** The store of tensor objects, the trace and the world *)

Abbreviation loc := positive.

Section world.
Context {T : Torch}.

(** The tensors a keyword argument of the scoring model can hold. *)
Inductive tensor :=
  | LongTensor2 (t : list (list Z))
  | LongTensor3 (t : list (list (list Z)))
  | FloatTensor3 (t : list (list (list float))).

(** What the sampler asks of its collaborators, in order. *)
Inductive event :=
  | CallModel (kwargs : gmap string tensor)
  | CallMultinomial (probs : list float) (num_samples : Z).

Record world := World {
    heap : gmap loc (list float);   (* the 1-D float tensors, by identity *)
    rng_state : rng;
    trace : list event;
  }.

(** A fresh tensor object. *)
Definition alloc (v : list float) : M (gmap loc (list float)) loc :=
  λ h, let l := fresh (dom h) in (Ok l, <[l := v]> h).

Definition load (l : loc) : M (gmap loc (list float)) (list float) :=
  λ h, match h !! l with
       | Some v => (Ok v, h)
       | None => (Raise RuntimeError, h)
       end.

Definition store (l : loc) (v : list float) : M (gmap loc (list float)) unit :=
  λ h, (Ok tt, <[l := v]> h).

(** A computation on the store, run inside the world. *)
Definition on_heap {A} (c : M (gmap loc (list float)) A) : M world A :=
  λ w, let '(r, h) := c (heap w) in (r, World h (rng_state w) (trace w)).

(** ** [top_k_top_p_filtering]

      [logits] is a reference to the caller's tensor; both stages overwrite
    it in place and the reference itself is returned.  The assertion
    [logits.dim() == 1] holds by the type of the stored tensors. *)

(** [logits[mask] = x], in place. *)
Definition masked_fill_ (logits : loc) (mask : list bool) (x : float)
  : M (gmap loc (list float)) unit :=
  v <- load logits ;; store logits (masked_fill v mask x).

(** [logits[idx] = x], in place. *)
Definition index_fill_ (logits : loc) (idx : list nat) (x : float)
  : M (gmap loc (list float)) unit :=
  v <- load logits ;; store logits (index_fill v idx x).

(** Lines 108-112: the top-k stage. *)
Definition top_k_stage (logits : loc) (top_k : Z) (filter_value : float)
  : M (gmap loc (list float)) unit :=
  v <- load logits ;;
  let top_k := Z.min top_k (Z.of_nat (length v)) in
  if (0 <? top_k)%Z then
    kth <- lift (kth_largest v (Z.to_nat top_k)) ;;
    let indices_to_remove := map (λ x, fltb x kth) v in
    masked_fill_ logits indices_to_remove filter_value
  else ret tt.

(** Lines 114-125: the nucleus stage. *)
Definition top_p_stage (logits : loc) (top_p : float) (filter_value : float)
  : M (gmap loc (list float)) unit :=
  if fltb fzero top_p then
    v <- load logits ;;
    let sorted_logits := sorted_values v in
    let sorted_indices := sorted_positions v in
    let cumulative_probs := cumsum (softmax sorted_logits) in
    let sorted_indices_to_remove := map (fltb top_p) cumulative_probs in
    let sorted_indices_to_remove := shift_right sorted_indices_to_remove in
    sorted_indices_to_remove <- lift (set_first sorted_indices_to_remove false) ;;
    let indices_to_remove := select sorted_indices sorted_indices_to_remove in
    index_fill_ logits indices_to_remove filter_value
  else ret tt.

Definition top_k_top_p_filtering
    (logits : loc) (top_k : Z) (top_p : float) (filter_value : float)
  : M (gmap loc (list float)) loc :=
  top_k_stage logits top_k filter_value ;;;
  top_p_stage logits top_p filter_value ;;;
  ret logits.

(** ** [sample_sequence] *)

(** Lines 162-167: the keyword arguments of the permutation (XLNet) mode,
    built from scratch. *)
Definition xlnet_inputs (generated : list (list Z))
  : result (gmap string tensor) :=
  match cat_dim1 generated (zeros2 0%Z 1 1) with
  | Raise e => Raise e
  | Ok input_ids =>
      let n := shape1 input_ids in
      if decide (n = 0) then Raise IndexError   (* no column -1 *)
      else
        let perm_mask :=
          map (map (λ row, set_last row fone)) (zeros3 fzero 1 n n) in
        let target_mapping :=
          alter (alter (λ row, set_last row fone) 0) 0 (zeros3 fzero 1 1 n) in
        Ok (<["input_ids" := LongTensor2 input_ids]>
            (<["perm_mask" := FloatTensor3 perm_mask]>
             {["target_mapping" := FloatTensor3 target_mapping]}))
  end.

Section step.
(** The scoring model: keyword arguments in, [outputs[0]] out. *)
Variable model : gmap string tensor → result (list (list (list float))).
Variables (num_samples : Z) (temperature : float) (top_k : Z) (top_p : float).
Variable is_xlnet : bool.
(** The replicated conditioning tensors, when [comet_input is not None]. *)
Variable comet : option (list (list (list Z)) * list (list (list float))).

Definition call_model (kwargs : gmap string tensor)
  : M world (list (list (list float))) :=
  λ w, (model kwargs,
        World (heap w) (rng_state w) (trace w ++ [CallModel kwargs])).

Definition call_multinomial (probs : list float) (n : Z) : M world (list Z) :=
  λ w, let '(r, g) := multinomial probs n (rng_state w) in
       (r, World (heap w) g (trace w ++ [CallMultinomial probs n])).

(** Lines 155-158: the keyword arguments before the mode is looked at. *)
Definition causal_inputs (generated : list (list Z)) : gmap string tensor :=
  let inputs := {["input_ids" := LongTensor2 generated]} in
  match comet with
  | Some (comet_input, comet_mask) =>
      <["comet_mask" := FloatTensor3 comet_mask]>
        (<["comet_input" := LongTensor3 comet_input]> inputs)
  | None => inputs
  end.

(** Lines 155-175: one iteration of the loop. *)
Definition sample_step (generated : list (list Z)) : M world (list (list Z)) :=
  let inputs := causal_inputs generated in
  inputs <- (if is_xlnet then lift (xlnet_inputs generated) else ret inputs) ;;
  outputs <- call_model inputs ;;
  row <- lift (index_0_last outputs) ;;
  next_token_logits <- on_heap (alloc (map (λ x, fdiv x temperature) row)) ;;
  filtered_logits <-
    on_heap (top_k_top_p_filtering next_token_logits top_k top_p neg_inf) ;;
  filtered <- on_heap (load filtered_logits) ;;
  next_token <- call_multinomial (softmax filtered) num_samples ;;
  lift (cat_dim1 generated [next_token]).

(** [for _ in range(length)]. *)
Fixpoint sample_loop (n : nat) (generated : list (list Z))
  : M world (list (list Z)) :=
  match n with
  | O => ret generated
  | S n' => generated <- sample_step generated ;; sample_loop n' generated
  end.
End step.

(** Lines 145-150: the conditioning tensors, replicated for the samples. *)
Definition assemble_conditioning (num_samples : Z)
    (comet_input : option (list (list Z)))
    (comet_mask : option (list (list float)))
  : M world (option (list (list (list Z)) * list (list (list float)))) :=
  match comet_input with
  | Some comet_input =>
      comet_input <- lift (unsqueeze_repeat comet_input num_samples) ;;
      comet_mask <-
        match comet_mask with
        | Some m => ret m
        | None => raise TypeError   (* torch.tensor(None) *)
        end ;;
      comet_mask <- lift (unsqueeze_repeat comet_mask num_samples) ;;
      ret (Some (comet_input, comet_mask))
  | None => ret None
  end.

Definition sample_sequence
    (model : gmap string tensor → result (list (list (list float))))
    (length : Z) (context : list Z) (num_samples : Z) (temperature : float)
    (top_k : Z) (top_p : float) (is_xlnet : bool)
    (comet_input : option (list (list Z)))
    (comet_mask : option (list (list float)))
  : M world (list (list Z)) :=
  context <- lift (unsqueeze_repeat context num_samples) ;;
  comet <- assemble_conditioning num_samples comet_input comet_mask ;;
  let generated := context in
  sample_loop model num_samples temperature top_k top_p is_xlnet comet
    (Z.to_nat length) generated.
End world.

(** ** [QGEvalCap.evaluate] *)

Module QGEvalCap.
Section evaluate.
(** Metric values, reference sets and prediction sets are opaque here. *)
Variables (num Gts Res : Type).

(** What a scorer hands back: a number, or a list of such values. *)
#[local] Unset Elimination Schemes.
Inductive pyval :=
    | PyFloat (x : num)
    | PyList (xs : list pyval).
#[local] Set Elimination Schemes.

Inductive scorer :=
    | Bleu (n : nat)
    | Meteor
    | Rouge
    | Cider
    | BertScore.

(** The second component of an entry of [scorers]. *)
Inductive method :=
    | Names (ms : list string)
    | Name (m : string).

(** A value of [scores_dict]: [model_key], a score, or [str(sc)]. *)
Inductive jval :=
    | JStr (s : string)
    | JNum (x : num)
    | JStrOf (x : num).

Record state := State {
    calls : list scorer;                       (* compute_score calls *)
    stdout : list (string * num);              (* the printed "m: sc" lines *)
    results_file : list (list (string * jval)); (* one dict per line *)
  }.

(** [scorer.compute_score(gts, res)] of each scorer. *)
Variable compute_score : scorer → Gts → Res → result (pyval * pyval).

Definition scorers : list (scorer * method) :=
    [ (Bleu 4, Names ["Bleu_1"; "Bleu_2"; "Bleu_3"; "Bleu_4"]);
      (Meteor, Name "METEOR");
      (Rouge, Name "ROUGE_L");
      (Cider, Name "CIDEr");
      (BertScore, Name "Bert Score") ].

(** [d[k] = v] on a dict kept in insertion order. *)
Fixpoint dict_set (d : list (string * jval)) (k : string) (v : jval)
    : list (string * jval) :=
    match d with
    | [] => [(k, v)]
    | (k', v') :: d' =>
        if decide (k' = k) then (k, v) :: d' else (k', v') :: dict_set d' k v
    end.

Definition call_scorer (s : scorer) (gts : Gts) (res : Res)
    : M state (pyval * pyval) :=
    λ st, (compute_score s gts res,
           State (calls st ++ [s]) (stdout st) (results_file st)).

(** [print("%s: %0.5f" % (m, sc))]: the format wants a number. *)
Definition print_score (m : string) (sc : pyval) : M state num :=
    match sc with
    | PyFloat x =>
        λ st, (Ok x, State (calls st) (stdout st ++ [(m, x)]) (results_file st))
    | PyList _ => raise TypeError
    end.

(** [zip(score, scores, method)]: both values must be iterable. *)
Definition zip3 (score scores : pyval) (ms : list string)
    : result (list (pyval * pyval * string)) :=
    match score, scores with
    | PyList a, PyList b => Ok (zip (zip a b) ms)
    | _, _ => Raise TypeError
    end.

(** Lines 43-46. *)
Fixpoint record_list (items : list (pyval * pyval * string))
      (acc : list num * list (string * jval))
    : M state (list num * list (string * jval)) :=
    match items with
    | [] => ret acc
    | (sc, _, m) :: items' =>
        x <- print_score m sc ;;
        record_list items' (acc.1 ++ [x], dict_set acc.2 m (JStrOf x))
    end.

(** Lines 41-50: the body of the loop over [scorers]. *)
Definition run_scorer (gts : Gts) (res : Res) (sm : scorer * method)
      (acc : list num * list (string * jval))
    : M state (list num * list (string * jval)) :=
    r <- call_scorer sm.1 gts res ;;
    match sm.2 with
    | Names ms =>
        items <- lift (zip3 r.1 r.2 ms) ;;
        record_list items acc
    | Name m =>
        x <- print_score m r.1 ;;
        ret (acc.1 ++ [x], dict_set acc.2 m (JNum x))
    end.

Fixpoint run_scorers (gts : Gts) (res : Res) (l : list (scorer * method))
      (acc : list num * list (string * jval))
    : M state (list num * list (string * jval)) :=
    match l with
    | [] => ret acc
    | sm :: l' => acc <- run_scorer gts res sm acc ;; run_scorers gts res l' acc
    end.

(** Lines 52-53: append one line to the results file. *)
Definition write_results (d : list (string * jval)) : M state unit :=
    λ st, (Ok tt, State (calls st) (stdout st) (results_file st ++ [d])).

Definition evaluate (model_key : string) (gts : Gts) (res : Res)
    : M state (list num) :=
    let output := [] in
    let scores_dict := dict_set [] "model_key" (JStr model_key) in
    acc <- run_scorers gts res scorers (output, scores_dict) ;;
    write_results acc.2 ;;;
    ret acc.1.
End evaluate.
End QGEvalCap.

(** ** An instance to run the definitions on

    Scores are exact rationals extended with minus infinity.  [qsoftmax] is
  the uniform distribution, which is what [F.softmax] returns on a vector
  whose entries are all equal; [qmultinomial] returns the first
  [num_samples] positions of non-zero probability, one of the outcomes of
  drawing without replacement, and refuses a count that is not positive or
  exceeds the support. *)

Module QTorch.
Inductive xq :=
  | NegInf
  | Fin (q : Q).

Definition qltb (a b : xq) : bool :=
  match a, b with
  | NegInf, Fin _ => true
  | Fin x, Fin y => (Qnum x * QDen y <? Qnum y * QDen x)%Z
  | _, NegInf => false
  end.

Definition qdiv (a b : xq) : xq :=
  match a, b with
  | Fin x, Fin y => Fin (x / y)
  | Fin _, NegInf => Fin 0
  | NegInf, _ => NegInf
  end.

Definition qadd (a b : xq) : xq :=
  match a, b with
  | Fin x, Fin y => Fin (x + y)
  | _, _ => NegInf
  end.

Definition qsoftmax (l : list xq) : list xq :=
  map (λ _, Fin (1 # Pos.of_nat (length l))) l.

Definition support (probs : list xq) : list Z :=
  map (λ ip : nat * xq, Z.of_nat ip.1)
      (filter (λ ip : nat * xq, qltb (Fin 0) ip.2 = true)
              (zip (seq 0 (length probs)) probs)).

Definition qmultinomial (probs : list xq) (n : Z) (g : nat)
  : result (list Z) * nat :=
  if (n <=? 0)%Z || (Z.of_nat (length (support probs)) <? n)%Z
  then (Raise RuntimeError, g)
  else (Ok (take (Z.to_nat n) (support probs)), S g).

#[export] Instance torch : Torch := {|
  float := xq;
  fltb := qltb;
  fdiv := qdiv;
  fadd := qadd;
  fzero := Fin 0;
  fone := Fin 1;
  neg_inf := NegInf;
  softmax := qsoftmax;
  rng := nat;
  multinomial := qmultinomial;
|}.

(** A scoring model that gives every position of every sample the same
  constant logits over a vocabulary of [vocab] tokens. *)
Definition constant_model (vocab : nat) (kwargs : gmap string tensor)
  : result (list (list (list xq))) :=
  match kwargs !! "input_ids" with
  | Some (LongTensor2 ids) => Ok (map (map (λ _, replicate vocab (Fin 0))) ids)
  | _ => Raise ModelError
  end.

(** A scoring model that agrees with [constant_model] on the first sample
  and prefers token 0 for every other sample. *)
Definition biased_model (vocab : nat) (kwargs : gmap string tensor)
  : result (list (list (list xq))) :=
  match kwargs !! "input_ids" with
  | Some (LongTensor2 ids) =>
      Ok (match ids with
          | [] => []
          | r :: rest =>
              map (λ _, replicate vocab (Fin 0)) r
              :: map (map (λ _, Fin 1 :: replicate (pred vocab) (Fin 0))) rest
          end)
  | _ => Raise ModelError
  end.

Definition world0 : world := World ∅ O [].

(** A vector with a tie for the largest score, held at reference 1. *)
Definition logits0 : list xq := [Fin 1; Fin 3; Fin 2; Fin 3; Fin 0].
Definition heap0 : gmap loc (list xq) := {[1%positive := logits0]}.

(** Scorers for a run of the aggregator: METEOR fails, the others return
  well-formed scores. *)
Definition meteor_fails (s : QGEvalCap.scorer) (gts res : unit)
  : result (QGEvalCap.pyval Q * QGEvalCap.pyval Q) :=
  match s with
  | QGEvalCap.Bleu _ =>
      Ok (QGEvalCap.PyList Q (replicate 4 (QGEvalCap.PyFloat Q (1 # 2))),
          QGEvalCap.PyList Q (replicate 4 (QGEvalCap.PyList Q [])))
  | QGEvalCap.Meteor => Raise ModelError
  | _ => Ok (QGEvalCap.PyFloat Q (1 # 2), QGEvalCap.PyList Q [])
  end.

Definition all_succeed (s : QGEvalCap.scorer) (gts res : unit)
  : result (QGEvalCap.pyval Q * QGEvalCap.pyval Q) :=
  match s with
  | QGEvalCap.Bleu _ =>
      Ok (QGEvalCap.PyList Q (replicate 4 (QGEvalCap.PyFloat Q (1 # 2))),
          QGEvalCap.PyList Q (replicate 4 (QGEvalCap.PyList Q [])))
  | _ => Ok (QGEvalCap.PyFloat Q (1 # 2), QGEvalCap.PyList Q [])
  end.
End QTorch.

(** ** The driver of [run_generation.py]: [main] after the set-up

    The tokenizer, the readers and writers of files, the console, the two
    record-to-prompt helpers of [anlg.run_lm_finetuning] and [json.dumps]
    are collaborators outside these sources; they are fields of
    [collaborators].  A call of [write_items] is recorded in [io_written]. *)

Definition MAX_LENGTH : Z := 10000.

Definition PADDING_TEXT : string :=
" In 1991, the remains of Russian Tsar Nicholas II and his family
(except for Alexei and Maria) are discovered.
The voice of Nicholas's young son, Tsarevich Alexei Nikolaevich, narrates the
remainder of the story. 1883 Western Siberia,
a young Grigori Rasputin is asked by his father and a group of men to perform magic.
Rasputin has a vision and denounces one of the men as a horse thief. Although his
father initially slaps him for making such an accusation, Rasputin watches as the
man is chased outside and beaten. Twenty years later, Rasputin sees a vision of
the Virgin Mary, prompting him to become a priest. Rasputin quickly becomes famous,
with people, even a bishop, begging for his blessing. <eod> </s> <eos>".

(** Lines 253-258: the number of tokens to generate, given the size
    [max_position_embeddings] of the model. *)
Definition clamp_length (length max_position_embeddings : Z) : Z :=
  if (length <? 0)%Z && (0 <? max_position_embeddings)%Z
  then max_position_embeddings
  else if (0 <? max_position_embeddings)%Z && (max_position_embeddings <? length)%Z
  then max_position_embeddings   (* no generation bigger than model size *)
  else if (length <? 0)%Z then MAX_LENGTH
  else length.

(** [s.find(c)] for a one-character [c]: the first position, or -1. *)
Fixpoint str_find (c : Ascii.ascii) (s : string) : Z :=
  match s with
  | EmptyString => -1
  | String a s' =>
      if Ascii.eqb a c then 0
      else let i := str_find c s' in if (i =? -1)%Z then -1 else (i + 1)%Z
  end.

(** [s[:n]] for [n >= 0]. *)
Fixpoint str_take (n : nat) (s : string) : string :=
  match n, s with
  | S n', String a s' => String a (str_take n' s')
  | _, _ => EmptyString
  end.

(** Lines 326-328: the generation up to its first period. *)
Definition cut_at_period (gen : string) : string :=
  let period_idx := str_find "."%char gen in
  if (period_idx =? -1)%Z then gen else str_take (Z.to_nat period_idx) gen.

(** [" ".join(tokens)]. *)
Fixpoint join_space (tokens : list string) : string :=
  match tokens with
  | [] => ""
  | [t] => t
  | t :: tokens' => t +:+ " " +:+ join_space tokens'
  end.

(** [d[k] = v] on a dict kept in insertion order, and [d.get(k)]. *)
Fixpoint od_set {K V} `{EqDecision K} (d : list (K * V)) (k : K) (v : V)
  : list (K * V) :=
  match d with
  | [] => [(k, v)]
  | (k', v') :: d' =>
      if decide (k' = k) then (k, v) :: d' else (k', v') :: od_set d' k v
  end.

Fixpoint od_get {K V} `{EqDecision K} (d : list (K * V)) (k : K) : option V :=
  match d with
  | [] => None
  | (k', v') :: d' => if decide (k' = k) then Some v' else od_get d' k
  end.

Section generation_driver.
Context {T : Torch}.
(** The fields of an input record other than ["generations"]. *)
Context {Fields : Type}.

Record anli_record := AnliRecord {
  rec_fields : Fields;
  rec_generations : option (list (string * list string));
}.

(** The command-line arguments the driver reads. *)
Record args := Args {
  args_model_type : string;
  args_input_file : option string;
  args_task : option string;
  args_output_file : option string;
  args_prompt : string;
  args_padding_text : string;
  args_length : Z;
  args_temperature : float;
  args_top_k : Z;
  args_top_p : float;
  args_num_samples : Z;
}.

Record collaborators := Collaborators {
  model : gmap string tensor → result (list (list (list float)));
  max_position_embeddings : Z;
  tokenizer_encode : string → list Z;
  tokenizer_decode : list Z → string;
  read_lines : string → list string;
  read_jsonl_lines : string → list anli_record;
  record_to_text_tokens_with_comet_pred :
    anli_record →
    list string * option (list (list Z)) * option (list (list float));
  anli_record_to_gpt_prompt : anli_record → list string;
  json_dumps : anli_record → string;
  console : nat → string;     (* what [input] returns, call after call *)
}.

(** What [main] prints inside the loop over the records. *)
Inductive printed :=
  | PrintContext (input_text_tokens : list string)
  | PrintCometInput (comet_event_inputs : list (list Z))
  | PrintCometMask (comet_attention_masks : option (list (list float))).

Record io := IO {
  io_world : world;
  io_console : nat;                                   (* [input] calls so far *)
  io_stdout : list printed;
  io_written : list (list string * option string);    (* [write_items] calls *)
}.

Definition on_world {A} (c : M world A) : M io A :=
  λ s, let '(r, w) := c (io_world s) in
       (r, IO w (io_console s) (io_stdout s) (io_written s)).

Definition input : collaborators → M io string :=
  λ c s, (Ok (console c (io_console s)),
          IO (io_world s) (S (io_console s)) (io_stdout s) (io_written s)).

Definition print (x : printed) : M io unit :=
  λ s, (Ok tt, IO (io_world s) (io_console s) (io_stdout s ++ [x]) (io_written s)).

Definition write_items (items : list string) (output_file : option string)
  : M io unit :=
  λ s, (Ok tt,
        IO (io_world s) (io_console s) (io_stdout s)
           (io_written s ++ [(items, output_file)])).

(** Lines 262-282: [_prompt_to_gen]. *)
Definition prompt_to_gen (c : collaborators) (a : args) (txt : string)
    (comet_event_inputs : option (list (list Z)))
    (comet_attention_masks : option (list (list float)))
  : M world string :=
  let txt :=
    if bool_decide (args_model_type a ∈ ["transfo-xl"; "xlnet"])
    then (if bool_decide (args_padding_text a = "") then PADDING_TEXT
          else args_padding_text a) +:+ txt
    else txt in
  let context_tokens := tokenizer_encode c txt in
  out <- sample_sequence (model c) (args_length a) context_tokens
           (args_num_samples a) (args_temperature a) (args_top_k a)
           (args_top_p a) (bool_decide (args_model_type a = "xlnet"))
           comet_event_inputs comet_attention_masks ;;
  (* out[0, len(context_tokens):] *)
  out <- lift (match out with
               | [] => Raise IndexError
               | row :: _ => Ok (drop (length context_tokens) row)
               end) ;;
  ret (tokenizer_decode c out).

(** Lines 302-339: the body of the loop over the records; [idx] counts the
    records done. *)
Definition process_record (c : collaborators) (a : args) (idx : nat)
    (record : anli_record) : M io anli_record :=
  let '(input_text_tokens, comet_event_inputs, comet_attention_masks) :=
    if bool_decide (args_model_type a = "gpt2_for_anli_comet") then
      let '(tokens, ci, cm) := record_to_text_tokens_with_comet_pred c record in
      (Some tokens, ci, cm)
    else if bool_decide (args_model_type a = "gpt2_for_anli") then
      (Some (anli_record_to_gpt_prompt c record), None, None)
    else (None, None, None) in
  input_text <-
    match input_text_tokens with
    | Some tokens => ret (join_space tokens)
    | None => raise TypeError          (* " ".join(None) *)
    end ;;
  gen <- on_world (prompt_to_gen c a input_text comet_event_inputs
                     comet_attention_masks) ;;
  let gen :=
    if bool_decide (args_model_type a = "gpt2_for_anli") then cut_at_period gen
    else gen in
  let generations :=
    match rec_generations record with
    | Some g => g
    | None => []
    end in
  let record :=
    AnliRecord (rec_fields record)
      (Some (od_set generations (args_model_type a) [gen])) in
  (if bool_decide (idx < 5) then
     print (PrintContext (default [] input_text_tokens)) ;;;
     match comet_event_inputs with
     | Some ci =>
         print (PrintCometInput ci) ;;;
         print (PrintCometMask comet_attention_masks)
     | None => ret tt
     end
   else ret tt) ;;;
  ret record.

Fixpoint process_records (c : collaborators) (a : args) (idx : nat)
    (records : list anli_record) : M io (list anli_record) :=
  match records with
  | [] => ret []
  | record :: records' =>
      record <- process_record c a idx record ;;
      records' <- process_records c a (S idx) records' ;;
      ret (record :: records')
  end.

(** Lines 284-340.  [_prompt_to_gen] takes three positional arguments;
    called with the text alone, as in the two modes without a task, the call
    itself raises [TypeError]. *)
Definition main_driver (c : collaborators) (a : args) : M io unit :=
  match args_input_file a with
  | None =>
      (* while True: the first iteration never ends normally *)
      raw_text <- (if bool_decide (args_prompt a = "") then input c
                   else ret (args_prompt a)) ;;
      raise TypeError                  (* _prompt_to_gen(raw_text) *)
  | Some input_file =>
      match args_task a with
      | None =>
          let lines := read_lines c input_file in
          generations <-
            match lines with
            | [] => ret []
            | _ :: _ => raise TypeError    (* _prompt_to_gen(l) *)
            end ;;
          write_items generations (args_output_file a)
      | Some task =>
          if bool_decide (task = "anli") then
            let records := read_jsonl_lines c input_file in
            records <- process_records c a 0 records ;;
            write_items (map (json_dumps c) records) (args_output_file a)
          else ret tt
      end
  end.

(** Lines 253-340: the length is clamped, then the driver runs. *)
Definition main (c : collaborators) (a : args) : M io unit :=
  let a :=
    Args (args_model_type a) (args_input_file a) (args_task a)
      (args_output_file a) (args_prompt a) (args_padding_text a)
      (clamp_length (args_length a) (max_position_embeddings c))
      (args_temperature a) (args_top_k a) (args_top_p a) (args_num_samples a) in
  main_driver c a.
End generation_driver.

(** ** The drivers of [eval.py]: [eval], [preprocess] and the script

    Besides the exceptions of the aggregator these raise [KeyError]; a
    computation ends in [Return] or [Throw]. *)

Module EvalDriver.
Inductive exn :=
  | Builtin (e : error)
  | KeyError.

Inductive outcome (A : Type) :=
  | Return (a : A)
  | Throw (x : exn).
Arguments Return {A} a.
Arguments Throw {A} x.

Definition obind {A B} (o : outcome A) (k : A → outcome B) : outcome B :=
  match o with
  | Return a => k a
  | Throw x => Throw x
  end.

(** [d[k]] on a dict. *)
Definition getitem {K V} `{EqDecision K} (d : list (K * V)) (k : K) : outcome V :=
  match od_get d k with
  | Some v => Return v
  | None => Throw KeyError
  end.

(** [d[k].append(x)]. *)
Definition append_at {K V} `{EqDecision K} (d : list (K * list V)) (k : K) (x : V)
  : outcome (list (K * list V)) :=
  obind (getitem d k) (λ l, Return (od_set d k (l ++ [x]))).

Section eval.
(** Sources (the keys of the grouping), references and predictions. *)
Context {K R P : Type} `{EqDecision K}.
Context {num : Type}.

(** One entry of [pairs]: a dict with up to three keys. *)
Record pair := Pair {
  tokenized_sentence : K;
  tokenized_question : option R;
  prediction : option P;
}.

(** Lines 72-75: [pairs[cnt]["tokenized_question"] = line] for each line. *)
Fixpoint set_questions (pairs : list pair) (cnt : nat) (references : list R)
  : outcome (list pair) :=
  match references with
  | [] => Return pairs
  | line :: references' =>
      match pairs !! cnt with
      | None => Throw (Builtin IndexError)
      | Some _ =>
          set_questions
            (alter (λ p, Pair (tokenized_sentence p) (Some line) (prediction p))
               cnt pairs)
            (S cnt) references'
      end
  end.

(** Lines 79-80: [pair["prediction"] = output[idx]] for each pair. *)
Fixpoint set_predictions (pairs : list pair) (idx : nat) (output : list P)
  : outcome (list pair) :=
  match pairs with
  | [] => Return []
  | p :: pairs' =>
      match output !! idx with
      | None => Throw (Builtin IndexError)
      | Some o =>
          obind (set_predictions pairs' (S idx) output)
            (λ ps, Return (Pair (tokenized_sentence p) (tokenized_question p)
                             (Some o) :: ps))
      end
  end.

(** Lines 90-99: [res] keeps the last prediction of a source, [gts] (a
    defaultdict of lists) collects its references. *)
Fixpoint group (pairs : list pair) (res : list (K * P)) (gts : list (K * list R))
  : outcome (list (K * list R) * list (K * P)) :=
  match pairs with
  | [] => Return (gts, res)
  | p :: pairs' =>
      let key := tokenized_sentence p in
      match prediction p with
      | None => Throw KeyError
      | Some o =>
          let res := od_set res key o in
          let gts :=
            match od_get gts key with
            | Some _ => gts
            | None => od_set gts key []
            end in
          match tokenized_question p with
          | None => Throw KeyError
          | Some q => obind (append_at gts key q) (λ gts, group pairs' res gts)
          end
      end
  end.

(** Lines 65-99. *)
Definition build (sources : list K) (references : list R) (predictions : list P)
  : outcome (list (K * list R) * list (K * P)) :=
  let pairs := map (λ tup, Pair tup None None) sources in
  obind (set_questions pairs 0 references) (λ pairs,
  let output := predictions in
  obind (set_predictions pairs 0 output) (λ pairs,
  group pairs [] [])).

Variable compute_score :
  QGEvalCap.scorer → list (K * list R) → list (K * P) →
  result (QGEvalCap.pyval num * QGEvalCap.pyval num).

(** Lines 58-103. *)
Definition eval (model_key : string) (sources : list K) (references : list R)
    (predictions : list P) (st : QGEvalCap.state num)
  : outcome (list num) * QGEvalCap.state num :=
  match build sources references predictions with
  | Throw x => (Throw x, st)
  | Return (gts, res) =>
      match QGEvalCap.evaluate num _ _ compute_score model_key gts res st with
      | (Ok output, st') => (Return output, st')
      | (Raise e, st') => (Throw (Builtin e), st')
      end
  end.
End eval.

Section preprocess.
(** The value stored for a model key in the ["generations"] of a line. *)
Context {G : Type}.
Context {num : Type}.

(** One parsed line of the generations file: its string fields, and its
    ["generations"] dict when it has one. *)
Record elem := Elem {
  elem_fields : list (string * string);
  elem_generations : option (list (string * G));
}.

(** Line 114. *)
Definition keys_list (keys : option (list string)) (generations : list elem)
  : outcome (list string) :=
  match keys with
  | Some keys => Return keys
  | None =>
      match generations with
      | [] => Throw (Builtin IndexError)
      | first :: _ =>
          match elem_generations first with
          | Some g => Return g.*1
          | None => Throw KeyError
          end
      end
  end.

(** The three dicts [sources], [references] and [predictions]. *)
Definition tables : Type :=
  list (string * list (string * string))
  * list (string * list string)
  * list (string * list G).

(** The three dicts have the same keys and, under each key, lists of one
    length. *)
Definition tables_agree (t : tables) : Prop :=
  let '(sources, references, predictions) := t in
  sources.*1 = references.*1 ∧ predictions.*1 = references.*1
  ∧ ∀ key, length <$> od_get sources key = length <$> od_get references key
           ∧ length <$> od_get predictions key
             = length <$> od_get references key.

(** Lines 115-118. *)
Fixpoint init_tables (keys : list string) (t : tables) : tables :=
  match keys with
  | [] => t
  | key :: keys' =>
      let '(sources, references, predictions) := t in
      init_tables keys'
        (od_set sources key [], od_set references key [],
         od_set predictions key [])
  end.

(** Lines 123-127: the loop over the keys for one line. *)
Fixpoint add_elem (e : elem) (hyp : string) (keys : list string) (t : tables)
  : outcome tables :=
  match keys with
  | [] => Return t
  | key :: keys' =>
      let '(sources, references, predictions) := t in
      match elem_generations e with
      | None => Throw KeyError
      | Some g =>
          match od_get g key with
          | None => add_elem e hyp keys' t
          | Some gen =>
              obind (append_at references key hyp) (λ references,
              obind (append_at predictions key gen) (λ predictions,
              obind (getitem sources key) (λ l,
              obind (getitem (elem_fields e) "obs1") (λ obs1,
              obind (getitem (elem_fields e) "obs2") (λ obs2,
              let sources := od_set sources key (l ++ [(obs1, obs2)]) in
              add_elem e hyp keys' (sources, references, predictions))))))
          end
      end
  end.

(** Lines 120-127. *)
Fixpoint add_elems (generations : list elem) (keys : list string) (t : tables)
  : outcome tables :=
  match generations with
  | [] => Return t
  | e :: generations' =>
      obind (getitem (elem_fields e) "label") (λ label,
      obind (getitem (elem_fields e) ("hyp" +:+ label)) (λ hyp,
      obind (add_elem e hyp keys t) (λ t,
      add_elems generations' keys t)))
  end.

(** Lines 106-130, from the parsed lines of the file on. *)
Definition preprocess (generations : list elem) (keys : option (list string))
  : outcome tables :=
  obind (keys_list keys generations) (λ keys_list,
  add_elems generations keys_list (init_tables keys_list ([], [], []))).

Variable compute_score :
  QGEvalCap.scorer → list (string * string * list string) →
  list (string * string * G) →
  result (QGEvalCap.pyval num * QGEvalCap.pyval num).

(** Lines 146-148: [eval] for each key of [references], in order. *)
Fixpoint eval_keys (keys : list string) (t : tables) (st : QGEvalCap.state num)
  : outcome unit * QGEvalCap.state num :=
  match keys with
  | [] => (Return tt, st)
  | key :: keys' =>
      let '(sources, references, predictions) := t in
      match getitem sources key, getitem references key, getitem predictions key with
      | Return s, Return r, Return p =>
          match eval compute_score key s r p st with
          | (Return _, st') => eval_keys keys' t st'
          | (Throw x, st') => (Throw x, st')
          end
      | _, _, _ => (Throw KeyError, st)
      end
  end.

(** Lines 141-148, from the parsed lines and the split [--keys] on. *)
Definition script (generations : list elem) (keys : option (list string))
    (st : QGEvalCap.state num) : outcome unit * QGEvalCap.state num :=
  match preprocess generations keys with
  | Throw x => (Throw x, st)
  | Return t => eval_keys t.1.2.*1 t st
  end.
End preprocess.
End EvalDriver.

(** The method names of an entry of [scorers] differ from [k]. *)
Definition names_differ (k : string) (sm : QGEvalCap.scorer * QGEvalCap.method)
  : Prop :=
  match sm.2 with
  | QGEvalCap.Names ms => k ∉ ms
  | QGEvalCap.Name m => m ≠ k
  end.

(** ** Inputs to run the drivers on *)

Module DriverExamples.
Import QTorch.

(** A tokenizer of one token per character. *)
Definition encode (s : string) : list Z :=
  map (λ a, Z.of_nat (nat_of_ascii a)) (list_ascii_of_string s).

Definition decode (l : list Z) : string :=
  string_of_list_ascii (map (λ z, ascii_of_nat (Z.to_nat z)) l).

Definition collab : collaborators (Fields := string) := {|
  model := constant_model 2;
  max_position_embeddings := 1024;
  tokenizer_encode := encode;
  tokenizer_decode := decode;
  read_lines := λ _, ["a prompt"];
  read_jsonl_lines := λ _, [AnliRecord "story" None];
  record_to_text_tokens_with_comet_pred := λ r, ([rec_fields r], None, None);
  anli_record_to_gpt_prompt := λ r, [rec_fields r];
  json_dumps := rec_fields;
  console := λ _, "typed";
|}.

Definition args0 (model_type : string) (num_samples : Z) : args := {|
  args_model_type := model_type;
  args_input_file := Some "in.jsonl";
  args_task := Some "anli";
  args_output_file := Some "out.jsonl";
  args_prompt := "";
  args_padding_text := "";
  args_length := 2;
  args_temperature := Fin 1;
  args_top_k := 0;
  args_top_p := Fin 0;
  args_num_samples := num_samples;
|}.

Definition io0 : io := IO world0 0 [] [].

(** Three sources, the first and the last being the same. *)
Definition sources0 : list (string * string) :=
  [("o1", "o2"); ("o3", "o4"); ("o1", "o2")].
Definition references0 : list string := ["h1"; "h2"; "h3"].
Definition predictions0 : list (list string) := [["g1"]; ["g2"]; ["g3"]].

(** One line of a generations file. *)
Definition generations0 : list (EvalDriver.elem (G := list string)) :=
  [EvalDriver.Elem
     [("label", "1"); ("hyp1", "h1"); ("hyp2", "h2"); ("obs1", "a"); ("obs2", "b")]
     (Some [("gpt2", ["gen"])])].

(** Scorers on dicts of any kind: all succeed, or METEOR fails. *)
Definition scores_ok {A B} (s : QGEvalCap.scorer) (gts : A) (res : B)
  : result (QGEvalCap.pyval Q * QGEvalCap.pyval Q) :=
  match s with
  | QGEvalCap.Bleu _ =>
      Ok (QGEvalCap.PyList Q (replicate 4 (QGEvalCap.PyFloat Q (1 # 2))),
          QGEvalCap.PyList Q (replicate 4 (QGEvalCap.PyList Q [])))
  | _ => Ok (QGEvalCap.PyFloat Q (1 # 2), QGEvalCap.PyList Q [])
  end.

Definition meteor_raises {A B} (s : QGEvalCap.scorer) (gts : A) (res : B)
  : result (QGEvalCap.pyval Q * QGEvalCap.pyval Q) :=
  match s with
  | QGEvalCap.Meteor => Raise ModelError
  | _ => scores_ok s gts res
  end.
End DriverExamples.

(** * Facts *)

(** ** The monad *)

Lemma bind_ok {W A B} (c : M W A) (k : A → M W B) w a w' :
  c w = (Ok a, w') → bind c k w = k a w'.
Proof. unfold bind. by intros ->. Qed.

Lemma bind_raise {W A B} (c : M W A) (k : A → M W B) w e w' :
  c w = (Raise e, w') → bind c k w = (Raise e, w').
Proof. unfold bind. by intros ->. Qed.

(** ** Sorting *)

Section sorting_facts.
Context {T : Torch} {L : TorchLaws T}.

Lemma fltb_asym x y : fltb x y = true → fltb y x = false.
Proof.
  intros Hxy. destruct (fltb y x) eqn:Hyx; [|done].
  pose proof (fltb_trans _ _ _ Hxy Hyx) as Hxx.
  by rewrite fltb_irrefl in Hxx.
Qed.


Lemma below_not_below x y z : fltb y x = true → not_below y z → not_below x z.
Proof.
  unfold not_below. intros Hyx Hyz.
  destruct (fltb x z) eqn:Hxz; [|done].
  pose proof (fltb_trans _ _ _ Hyx Hxz). congruence.
Qed.

Lemma insert_desc_perm x l : insert_desc x l ≡ₚ x :: l.
Proof.
  induction l as [|y l IH]; simpl; [done|].
  destruct (fltb y.2 x.2); [done|].
  rewrite IH. apply Permutation_swap.
Qed.

Lemma sort_desc_perm v : sort_desc v ≡ₚ zip (seq 0 (length v)) v.
Proof.
  unfold sort_desc. generalize (zip (seq 0 (length v)) v) as l.
  induction l as [|x l IH]; simpl; [done|].
  by rewrite insert_desc_perm, IH.
Qed.

Lemma sorted_values_perm v : sorted_values v ≡ₚ v.
Proof.
  unfold sorted_values. rewrite sort_desc_perm.
  rewrite snd_zip; [done|]. rewrite length_seq. lia.
Qed.


Lemma length_sort_desc v : length (sort_desc v) = length v.
Proof.
  rewrite sort_desc_perm, length_zip, length_seq. lia.
Qed.

Lemma length_sorted_values v : length (sorted_values v) = length v.
Proof. by rewrite sorted_values_perm. Qed.


Lemma insert_desc_sorted x l :
  StronglySorted (λ a b, not_below a.2 b.2) l →
  StronglySorted (λ a b, not_below a.2 b.2) (insert_desc x l).
Proof.
  induction 1 as [|y l Hl IH Hy]; simpl.
  - repeat constructor.
  - destruct (fltb y.2 x.2) eqn:Hyx.
    + constructor; [by constructor|].
      constructor; [by apply fltb_asym|].
      eapply Forall_impl; [exact Hy|]. intros z Hz. simpl in *.
      by eapply below_not_below.
    + constructor; [done|].
      rewrite insert_desc_perm. by constructor.
Qed.

Lemma sort_desc_sorted v :
  StronglySorted (λ a b, not_below a.2 b.2) (sort_desc v).
Proof.
  unfold sort_desc. generalize (zip (seq 0 (length v)) v) as l.
  induction l as [|x l IH]; simpl; [constructor|].
  by apply insert_desc_sorted.
Qed.

Lemma sorted_values_sorted v : StronglySorted not_below (sorted_values v).
Proof.
  unfold sorted_values. pose proof (sort_desc_sorted v) as H.
  induction H as [|y l Hl IH Hy]; simpl; constructor; [done|].
  apply Forall_fmap. by eapply Forall_impl.
Qed.



Lemma kth_largest_ok v k :
  0 < k ≤ length v →
  ∃ kth, kth_largest v k = Ok kth ∧ sorted_values v !! (k - 1) = Some kth.
Proof.
  intros Hk. unfold kth_largest, topk.
  rewrite last_lookup, length_take_le by (rewrite length_sorted_values; lia).
  rewrite lookup_take_lt by lia.
  destruct (lookup_lt_is_Some_2 (sorted_values v) (pred k)) as [x Hx].
  { rewrite length_sorted_values. lia. }
  rewrite Hx. exists x. split; [done|].
  by replace (k - 1) with (pred k) by lia.
Qed.

Lemma filter_all {A} (P : A → Prop) `{!∀ x, Decision (P x)} (l : list A) :
  Forall P l → filter P l = l.
Proof.
  induction 1 as [|x l Hx _ IH]; [done|].
  by rewrite filter_cons_True, IH.
Qed.

Lemma filter_none {A} (P : A → Prop) `{!∀ x, Decision (P x)} (l : list A) :
  Forall (λ x, ¬ P x) l → filter P l = [].
Proof.
  induction 1 as [|x l Hx _ IH]; [done|].
  by rewrite filter_cons_False, IH.
Qed.

(** The score at sorted position [k'] is a score of the vector; counting
    ties, at least [k' + 1] scores are not below it and at most [k'] are
    strictly above it. *)
Lemma sorted_lookup_rank v k' kth :
  sorted_values v !! k' = Some kth →
  kth ∈ v
  ∧ S k' ≤ length (filter (λ x, fltb x kth = false) v)
  ∧ length (filter (λ x, fltb kth x = true) v) ≤ k'.
Proof.
  intros Hk.
  pose proof (sorted_values_sorted v) as Hs.
  pose proof (lookup_lt_Some _ _ _ Hk) as Hlt.
  rewrite <-(sorted_values_perm v) at 1 2 3.
  rewrite <-(take_drop_middle _ _ _ Hk) in Hs |- *.
  apply StronglySorted_app in Hs as (Hpre & _ & Hpost).
  apply StronglySorted_cons in Hpost as [Hpost _].
  split; [set_solver|]. split.
  - rewrite filter_app, length_app.
    rewrite (filter_all _ (take k' _)).
    + rewrite filter_cons_True by apply fltb_irrefl.
      rewrite length_take_le by lia. simpl. lia.
    + apply Forall_forall. intros x Hx. apply Hpre; [done|set_solver].
  - rewrite filter_app, length_app.
    rewrite (filter_none _ (kth :: _)).
    + pose proof (length_filter (λ x, fltb kth x = true) (take k' (sorted_values v))).
      rewrite length_take_le in H by lia. simpl. lia.
    + constructor; [by rewrite fltb_irrefl|].
      eapply Forall_impl; [exact Hpost|]. unfold not_below. intros x ->. done.
Qed.

(** The last sorted score is below no score of the vector. *)
Lemma sorted_last_least v kth x :
  sorted_values v !! pred (length v) = Some kth → x ∈ v → fltb x kth = false.
Proof.
  intros Hk Hx.
  pose proof (sorted_values_sorted v) as Hs.
  rewrite <-(sorted_values_perm v) in Hx.
  rewrite <-(take_drop_middle _ _ _ Hk) in Hs, Hx.
  rewrite drop_ge in Hs, Hx by (rewrite length_sorted_values; lia).
  apply StronglySorted_app in Hs as (Hpre & _ & _).
  apply elem_of_app in Hx as [Hx|Hx].
  - apply Hpre; [done|set_solver].
  - apply list_elem_of_singleton in Hx as ->. apply fltb_irrefl.
Qed.

End sorting_facts.

(** ** The two stages of the filter, run on a store *)

Section filter_facts.
Context {T : Torch} {L : TorchLaws T}.
Implicit Types (h : gmap loc (list float)) (l : loc) (v : list float).

Lemma masked_fill_map {A} (f : A → bool) (t : list A) (x : A) :
  masked_fill t (map f t) x = map (λ y, if f y then x else y) t.
Proof.
  unfold masked_fill. induction t as [|y t IH]; simpl; [done|]. by rewrite IH.
Qed.

Lemma top_k_stage_noop h l v top_k fv :
  h !! l = Some v →
  (Z.min top_k (Z.of_nat (length v)) ≤ 0)%Z →
  top_k_stage l top_k fv h = (Ok tt, h).
Proof.
  intros Hl Hk. unfold top_k_stage, bind, load. rewrite Hl.
  by destruct (Z.ltb_spec 0 (Z.min top_k (Z.of_nat (length v)))); [lia|].
Qed.

Lemma top_k_stage_run h l v top_k fv :
  h !! l = Some v →
  (0 < Z.min top_k (Z.of_nat (length v)))%Z →
  ∃ kth,
    sorted_values v !! (Z.to_nat (Z.min top_k (Z.of_nat (length v))) - 1) = Some kth
    ∧ top_k_stage l top_k fv h
      = (Ok tt, <[l := map (λ x, if fltb x kth then fv else x) v]> h).
Proof.
  intros Hl Hk.
  destruct (kth_largest_ok v (Z.to_nat (Z.min top_k (Z.of_nat (length v)))))
    as (kth & Hkth & Hsv); [lia|].
  exists kth. split; [done|].
  unfold top_k_stage, bind, load. rewrite Hl.
  destruct (Z.ltb_spec 0 (Z.min top_k (Z.of_nat (length v)))); [|lia].
  unfold lift. rewrite Hkth.
  unfold masked_fill_, bind, load, store. rewrite Hl.
  by rewrite masked_fill_map.
Qed.

Lemma top_p_stage_noop h l top_p fv :
  fltb fzero top_p = false → top_p_stage l top_p fv h = (Ok tt, h).
Proof. unfold top_p_stage. by intros ->. Qed.

Lemma length_cumsum_from acc p : length (cumsum_from acc p) = length p.
Proof. revert acc. induction p as [|x p IH]; intros acc; simpl; [done|]. by rewrite IH. Qed.

Lemma length_cumsum p : length (cumsum p) = length p.
Proof. destruct p; simpl; [done|]. by rewrite length_cumsum_from. Qed.

(** The mask of the nucleus stage after the shift and the reset of its
    first entry. *)
Lemma shifted_mask (mask : list bool) :
  mask ≠ [] →
  set_first (shift_right mask) false
  = Ok (false :: take (pred (length mask)) mask).
Proof. by destruct mask. Qed.

Lemma top_p_stage_run h l v top_p fv :
  h !! l = Some v → v ≠ [] → fltb fzero top_p = true →
  top_p_stage l top_p fv h
  = (Ok tt,
     <[l := index_fill v
              (select (sorted_positions v)
                 (false :: take (pred (length v))
                             (map (fltb top_p)
                                (cumsum (softmax (sorted_values v))))))
              fv]> h).
Proof.
  intros Hl Hv Hp. unfold top_p_stage. rewrite Hp.
  unfold bind at 1. unfold load at 1. rewrite Hl.
  unfold bind at 1. unfold lift.
  rewrite shifted_mask.
  - rewrite length_map, length_cumsum, softmax_length, length_sorted_values.
    unfold index_fill_, bind, load, store. by rewrite Hl.
  - intros Hnil%(f_equal length).
    rewrite length_map, length_cumsum, softmax_length, length_sorted_values in Hnil.
    by destruct v.
Qed.

Lemma top_p_stage_empty h l top_p fv :
  h !! l = Some [] → fltb fzero top_p = true →
  top_p_stage l top_p fv h = (Raise IndexError, h).
Proof.
  intros Hl Hp. unfold top_p_stage. rewrite Hp.
  unfold bind at 1. unfold load at 1. rewrite Hl.
  unfold bind at 1. unfold lift.
  assert (cumsum (softmax (sorted_values [])) = []) as ->; [|done].
  apply length_zero_iff_nil.
  by rewrite length_cumsum, softmax_length, length_sorted_values.
Qed.

Lemma index_fill_cons {A} (t : list A) k idx x :
  index_fill t (k :: idx) x = <[k := x]> (index_fill t idx x).
Proof. done. Qed.

Lemma length_index_fill {A} (t : list A) idx x :
  length (index_fill t idx x) = length t.
Proof.
  induction idx as [|i idx IH]; [done|].
  by rewrite index_fill_cons, length_insert.
Qed.

Lemma lookup_index_fill_in {A} (t : list A) idx x i :
  i ∈ idx → i < length t → index_fill t idx x !! i = Some x.
Proof.
  induction idx as [|k idx IH].
  - by intros ?%elem_of_nil.
  - intros Hin Hlt. rewrite index_fill_cons.
    destruct (decide (k = i)) as [->|Hne].
    + apply list_lookup_insert_eq. by rewrite length_index_fill.
    + rewrite list_lookup_insert_ne by done.
      apply elem_of_cons in Hin as [?|Hin]; [congruence|]. by apply IH.
Qed.

Lemma lookup_index_fill_notin {A} (t : list A) idx x i :
  i ∉ idx → index_fill t idx x !! i = t !! i.
Proof.
  induction idx as [|k idx IH]; [done|].
  intros Hin. rewrite index_fill_cons, list_lookup_insert_ne by set_solver.
  apply IH. set_solver.
Qed.









End filter_facts.

(** ** The filter as a whole *)

Section filter_claims.
Context {T : Torch} {L : TorchLaws T}.
Implicit Types (h : gmap loc (list float)) (l : loc) (v : list float).

Lemma filtering_unfold l top_k top_p fv h :
  top_k_top_p_filtering l top_k top_p fv h
  = match top_k_stage l top_k fv h with
    | (Ok _, h1) =>
        match top_p_stage l top_p fv h1 with
        | (Ok _, h2) => (Ok l, h2)
        | (Raise e, h2) => (Raise e, h2)
        end
    | (Raise e, h1) => (Raise e, h1)
    end.
Proof.
  unfold top_k_top_p_filtering, bind, ret.
  destruct (top_k_stage l top_k fv h) as [[[]|e] h1]; [|done].
  by destruct (top_p_stage l top_p fv h1) as [[[]|e] h2].
Qed.

Lemma lookup_index_fill_cases {A} (t : list A) idx x i y :
  t !! i = Some y →
  index_fill t idx x !! i = Some y ∨ index_fill t idx x !! i = Some x.
Proof.
  intros Hi. destruct (decide (i ∈ idx)).
  - right. apply lookup_index_fill_in; [done|]. by eapply lookup_lt_Some.
  - left. by rewrite lookup_index_fill_notin.
Qed.

(** The top-k stage on a store that holds [v] at [l]. *)
Lemma top_k_stage_total h l v top_k fv :
  h !! l = Some v →
  ∃ v', top_k_stage l top_k fv h = (Ok tt, <[l := v']> h)
        ∧ length v' = length v
        ∧ ∀ i x, v !! i = Some x → v' !! i = Some x ∨ v' !! i = Some fv.
Proof.
  intros Hl.
  destruct (Z.le_gt_cases (Z.min top_k (Z.of_nat (length v))) 0) as [Hk|Hk].
  - exists v. rewrite insert_id by done.
    split; [by eapply top_k_stage_noop|]. split; [done|by left].
  - destruct (top_k_stage_run h l v top_k fv Hl) as (kth & _ & Hrun); [lia|].
    eexists. split; [exact Hrun|]. split; [by rewrite length_map|].
    intros i x Hi. change (map ?f v) with (f <$> v).
    rewrite list_lookup_fmap, Hi. simpl.
    destruct (fltb x kth); [by right|by left].
Qed.

(** The whole filter on a store that holds [v] at [l]; the nucleus stage
    needs a first entry to reset. *)
Lemma filtering_run h l v top_k top_p fv :
  h !! l = Some v → v ≠ [] ∨ fltb fzero top_p = false →
  ∃ v', top_k_top_p_filtering l top_k top_p fv h = (Ok l, <[l := v']> h)
        ∧ length v' = length v
        ∧ ∀ i x, v !! i = Some x → v' !! i = Some x ∨ v' !! i = Some fv.
Proof.
  intros Hl Hv.
  destruct (top_k_stage_total h l v top_k fv Hl) as (v1 & Hrun1 & Hlen1 & Hv1).
  rewrite filtering_unfold, Hrun1.
  destruct (fltb fzero top_p) eqn:Hp.
  - destruct Hv as [Hv|]; [|done].
    rewrite (top_p_stage_run _ l v1) by
      (try apply lookup_insert_eq; try done; intros ->; by destruct v).
    rewrite insert_insert_eq. eexists. split; [done|].
    split; [by rewrite length_index_fill|].
    intros i x Hi. destruct (Hv1 i x Hi) as [Hx|Hx].
    + by eapply lookup_index_fill_cases.
    + right. destruct (lookup_index_fill_cases v1 (select (sorted_positions v1)
        (false :: take (pred (length v1))
           (map (fltb top_p) (cumsum (softmax (sorted_values v1)))))) fv i fv Hx);
        done.
  - rewrite top_p_stage_noop by done. eauto.
Qed.

(** C6: for [top_k > 0] the top-k stage overwrites exactly the entries
    strictly below the k-th largest score, [k = min(top_k, vocab_size)]:
    that score is one of the vector, at least [k] entries are not below it
    (ties included) and fewer than [k] are above it; every entry that is not
    below it keeps its value; with [top_p] not positive this is the whole
    filter; and for [top_k >= vocab_size] nothing changes. *)
Theorem top_k_stage_suppresses_below_kth h l v top_k top_p fv :
  h !! l = Some v → (0 < top_k)%Z →
  let k := Z.to_nat (Z.min top_k (Z.of_nat (length v))) in
  ∃ v',
    top_k_stage l top_k fv h = (Ok tt, <[l := v']> h)
    ∧ (fltb fzero top_p = false →
       top_k_top_p_filtering l top_k top_p fv h = (Ok l, <[l := v']> h))
    ∧ length v' = length v
    ∧ (v ≠ [] →
       ∃ kth, kth ∈ v
         ∧ k ≤ length (filter (λ x, fltb x kth = false) v)
         ∧ length (filter (λ x, fltb kth x = true) v) < k
         ∧ ∀ i x, v !! i = Some x →
             v' !! i = Some (if fltb x kth then fv else x))
    ∧ ((Z.of_nat (length v) ≤ top_k)%Z → v' = v).
Proof.
  intros Hl Htop k.
  assert (∀ v', top_k_stage l top_k fv h = (Ok tt, <[l := v']> h) →
            fltb fzero top_p = false →
            top_k_top_p_filtering l top_k top_p fv h = (Ok l, <[l := v']> h))
    as Hwhole.
  { intros v' Hrun Hp. by rewrite filtering_unfold, Hrun, top_p_stage_noop. }
  destruct (decide (v = [])) as [->|Hv].
  - exists []. rewrite insert_id by done.
    assert (top_k_stage l top_k fv h = (Ok tt, h)) as Hrun.
    { eapply top_k_stage_noop; [done|]. simpl. lia. }
    split; [done|]. split.
    { intros Hp. rewrite <-(insert_id h l []) at 2 by done.
      apply Hwhole; [|done]. by rewrite insert_id. }
    done.
  - assert (0 < length v) by (destruct v; [done|simpl; lia]).
    destruct (top_k_stage_run h l v top_k fv Hl) as (kth & Hkth & Hrun); [lia|].
    fold k in Hkth.
    eexists. split; [exact Hrun|]. split; [by apply Hwhole|].
    split; [by rewrite length_map|]. split.
    + intros _. exists kth.
      destruct (sorted_lookup_rank v (k - 1) kth Hkth) as (Hin & Hge & Hgt).
      split; [done|]. split; [unfold k in *; lia|]. split; [unfold k in *; lia|].
      intros i x Hi. change (map ?f v) with (f <$> v).
      by rewrite list_lookup_fmap, Hi.
    + intros Hall. apply list_eq. intros i.
      change (map ?f v) with (f <$> v). rewrite list_lookup_fmap.
      destruct (v !! i) as [x|] eqn:Hi; [|done]. simpl.
      rewrite (sorted_last_least v kth x); [done| |by eapply list_elem_of_lookup_2].
      rewrite <-Hkth. f_equal. unfold k. lia.
Qed.


(** C8: with [top_k = 0] and [top_p = 0] the filter returns its argument
    and leaves the store, hence the vector, as it was. *)
Theorem filtering_disabled_is_identity h l v fv :
  h !! l = Some v →
  top_k_top_p_filtering l 0 fzero fv h = (Ok l, h) ∧ h !! l = Some v.
Proof.
  intros Hl. split; [|done].
  rewrite filtering_unfold.
  rewrite (top_k_stage_noop h l v) by (done || lia).
  by rewrite top_p_stage_noop by apply fltb_irrefl.
Qed.

End filter_claims.

(** ** The sampler *)

Section sampler_facts.
Context {T : Torch}.
Implicit Types (w : world) (generated : list (list Z)).
Implicit Types (model : gmap string tensor → result (list (list (list float)))).
Implicit Types (is_xlnet : bool) (num_samples top_k : Z).
Implicit Types (comet : option (list (list (list Z)) * list (list (list float)))).

Lemma raises_bind_l {W A B} (c : M W A) (k : A → M W B) (s : W) :
  (∃ e s', c s = (Raise e, s')) → ∃ e s', bind c k s = (Raise e, s').
Proof. intros (e & s' & Hc). exists e, s'. by apply bind_raise. Qed.

Lemma raises_bind_r {W A B} (c : M W A) (k : A → M W B) (s : W) :
  (∀ a s1, ∃ e s', k a s1 = (Raise e, s')) → ∃ e s', bind c k s = (Raise e, s').
Proof.
  intros Hk. unfold bind. destruct (c s) as [[a|e] s1]; [apply Hk|eauto].
Qed.

Lemma cat_dim1_mismatch {A} (a b : list (list A)) :
  length a ≠ length b → cat_dim1 a b = Raise RuntimeError.
Proof. intros Hne. unfold cat_dim1. by rewrite decide_False. Qed.

Lemma cat_dim1_single {A} (r1 r2 : list A) : cat_dim1 [r1] [r2] = Ok [r1 ++ r2].
Proof. done. Qed.

(** A step cannot finish unless the batch holds exactly one sequence: both
    concatenations along dimension 1 pair [generated] with a tensor of one
    row. *)
Lemma sample_step_needs_one_row
    model num_samples temperature top_k top_p is_xlnet comet generated w :
  length generated ≠ 1 →
  ∃ e w', sample_step model num_samples temperature top_k top_p is_xlnet comet
            generated w = (Raise e, w').
Proof.
  intros Hlen. unfold sample_step. destruct is_xlnet.
  - apply raises_bind_l. unfold lift, xlnet_inputs.
    rewrite cat_dim1_mismatch by done. eauto.
  - do 7 (apply raises_bind_r; intros ? ?).
    unfold lift. rewrite cat_dim1_mismatch by done. eauto.
Qed.

Lemma unsqueeze_repeat_ok {A} (t : A) n :
  (0 ≤ n)%Z → unsqueeze_repeat t n = Ok (replicate (Z.to_nat n) t).
Proof. intros Hn. unfold unsqueeze_repeat. by destruct (Z.ltb_spec n 0); [lia|]. Qed.

Lemma unsqueeze_repeat_negative {A} (t : A) n :
  (n < 0)%Z → unsqueeze_repeat t n = Raise RuntimeError.
Proof. intros Hn. unfold unsqueeze_repeat. by destruct (Z.ltb_spec n 0); [|lia]. Qed.

(** C1 (what the code does instead): with two or more parallel samples and
    at least one step to take, [sample_sequence] raises, whatever the
    scoring model, the random draws and the other arguments are; no
    sequence is returned. *)
Theorem sample_sequence_raises_for_several_samples
    model length context num_samples temperature top_k top_p is_xlnet
    comet_input comet_mask w :
  (2 ≤ num_samples)%Z → (1 ≤ length)%Z →
  ∃ e w', sample_sequence model length context num_samples temperature
            top_k top_p is_xlnet comet_input comet_mask w = (Raise e, w').
Proof.
  intros HN Hlen. unfold sample_sequence.
  rewrite (bind_ok _ _ w (replicate (Z.to_nat num_samples) context) w)
    by (unfold lift; by rewrite unsqueeze_repeat_ok by lia).
  apply raises_bind_r. intros comet w1.
  destruct (Z.to_nat length) as [|n] eqn:Hn; [lia|]. simpl.
  apply raises_bind_l. apply sample_step_needs_one_row.
  rewrite length_replicate. lia.
Qed.

(** What one step adds to the trace: nothing when the keyword arguments
    cannot be built, else one call of the scoring model, followed by at most
    one call of [torch.multinomial], which asks for [num_samples] tokens. *)
Lemma sample_step_trace
    model num_samples temperature top_k top_p is_xlnet comet generated w :
  match (if is_xlnet then xlnet_inputs generated
         else Ok (causal_inputs comet generated)) with
  | Raise e =>
      sample_step model num_samples temperature top_k top_p is_xlnet comet
        generated w = (Raise e, w)
  | Ok kwargs =>
      ∃ evs,
        trace (sample_step model num_samples temperature top_k top_p is_xlnet
                 comet generated w).2
        = trace w ++ CallModel kwargs :: evs
        ∧ (evs = [] ∨ ∃ probs, evs = [CallMultinomial probs num_samples])
  end.
Proof.
  unfold sample_step.
  set (inputs := if is_xlnet then xlnet_inputs generated
                 else Ok (causal_inputs comet generated)).
  assert ((if is_xlnet then lift (xlnet_inputs generated)
           else ret (causal_inputs comet generated)) w = (inputs, w)) as Hin.
  { unfold inputs. by destruct is_xlnet. }
  destruct inputs as [kwargs|e]; [|by apply bind_raise].
  unfold bind at 1. rewrite Hin.
  unfold bind, lift, call_model, call_multinomial, on_heap, alloc, load. simpl.
  destruct (model kwargs) as [outputs|e]; simpl; [|by exists []; auto].
  destruct (index_0_last outputs) as [row|e]; simpl; [|by exists []; auto].
  destruct (top_k_top_p_filtering _ _ _ _ _) as [[l|e] h]; simpl;
    [|by exists []; auto].
  destruct (h !! l) as [filtered|]; simpl; [|by exists []; auto].
  destruct (multinomial _ _ _) as [[next_token|e] g]; simpl.
  - destruct (cat_dim1 generated [next_token]); simpl; rewrite <-app_assoc; eauto.
  - rewrite <-app_assoc. eauto.
Qed.

(** The trace only grows, and every scoring-model call that the loop adds
    carries keyword arguments built by one of its steps. *)
Lemma sample_loop_trace
    model num_samples temperature top_k top_p is_xlnet comet
    (P : gmap string tensor → Prop) n generated w :
  (∀ g kwargs,
     (if is_xlnet then xlnet_inputs g else Ok (causal_inputs comet g))
     = Ok kwargs → P kwargs) →
  ∃ evs,
    trace (sample_loop model num_samples temperature top_k top_p is_xlnet
             comet n generated w).2 = trace w ++ evs
    ∧ ∀ kwargs, CallModel kwargs ∈ evs → P kwargs.
Proof.
  intros HP. revert generated w.
  induction n as [|n IH]; intros generated w; simpl.
  { exists []. rewrite app_nil_r. split; [done|]. by intros ? ?%elem_of_nil. }
  pose proof (sample_step_trace model num_samples temperature top_k top_p
                is_xlnet comet generated w) as Hstep.
  pose proof (HP generated) as HPg.
  destruct (if is_xlnet then xlnet_inputs generated
            else Ok (causal_inputs comet generated)) as [kwargs|e].
  - destruct Hstep as (evs1 & Htr & Hevs).
    unfold bind.
    destruct (sample_step _ _ _ _ _ _ _ generated w) as [[g1|e] w1]; simpl in *.
    + destruct (IH g1 w1) as (evs2 & Htr2 & Hevs2).
      exists ((CallModel kwargs :: evs1) ++ evs2).
      rewrite Htr2, Htr, <-app_assoc. split; [done|].
      intros kw [Hkw|Hkw]%elem_of_app; [|by apply Hevs2].
      apply elem_of_cons in Hkw as [Hkw|Hkw]; [simplify_eq; by apply HPg|].
      destruct Hevs as [->|[probs ->]]; [by apply elem_of_nil in Hkw|].
      by apply list_elem_of_singleton in Hkw.
    + exists (CallModel kwargs :: evs1). split; [done|].
      intros kw Hkw.
      apply elem_of_cons in Hkw as [Hkw|Hkw]; [simplify_eq; by apply HPg|].
      destruct Hevs as [->|[probs ->]]; [by apply elem_of_nil in Hkw|].
      by apply list_elem_of_singleton in Hkw.
  - rewrite (bind_raise _ _ _ _ _ Hstep). simpl.
    exists []. rewrite app_nil_r. split; [done|]. by intros ? ?%elem_of_nil.
Qed.

Lemma bind_ext {W A B} (c : M W A) (k1 k2 : A → M W B) (s : W) :
  (∀ a s1, k1 a s1 = k2 a s1) → bind c k1 s = bind c k2 s.
Proof. intros Hk. unfold bind. by destruct (c s) as [[a|e] s1]. Qed.

Lemma sample_step_first_sample
    model1 model2 num_samples temperature top_k top_p is_xlnet comet generated w :
  (∀ kwargs,
     match model1 kwargs, model2 kwargs with
     | Ok o1, Ok o2 => index_0_last o1 = index_0_last o2
     | Raise e1, Raise e2 => e1 = e2
     | _, _ => False
     end) →
  sample_step model1 num_samples temperature top_k top_p is_xlnet comet generated w
  = sample_step model2 num_samples temperature top_k top_p is_xlnet comet generated w.
Proof.
  intros Hagree. unfold sample_step. apply bind_ext. intros inputs w1.
  unfold bind at 1 3. unfold call_model. specialize (Hagree inputs).
  destruct (model1 inputs) as [o1|e1], (model2 inputs) as [o2|e2];
    try done; [|by subst].
  unfold bind at 1 3. unfold lift. by rewrite Hagree.
Qed.

(** C2 (what the code does instead): the sampler reads the scoring model's
    output through [outputs[0][0, -1, :]] alone, so two models that agree on
    the first sample's last position give the same run, whatever logits they
    return for the other samples; and a step draws at most once, asking
    [torch.multinomial] for all [num_samples] tokens from that one
    distribution. *)
Theorem sample_sequence_draws_from_first_sample_only
    model1 model2 length context num_samples temperature top_k top_p is_xlnet
    comet_input comet_mask :
  (∀ kwargs,
     match model1 kwargs, model2 kwargs with
     | Ok o1, Ok o2 => index_0_last o1 = index_0_last o2
     | Raise e1, Raise e2 => e1 = e2
     | _, _ => False
     end) →
  (∀ w, sample_sequence model1 length context num_samples temperature top_k
          top_p is_xlnet comet_input comet_mask w
        = sample_sequence model2 length context num_samples temperature top_k
            top_p is_xlnet comet_input comet_mask w)
  ∧ (∀ comet generated w,
       ∃ evs,
         trace (sample_step model1 num_samples temperature top_k top_p
                  is_xlnet comet generated w).2 = trace w ++ evs
         ∧ (evs = []
            ∨ ∃ kwargs, evs = [CallModel kwargs]
                ∨ ∃ probs,
                    evs = [CallModel kwargs; CallMultinomial probs num_samples])).
Proof.
  intros Hagree. split.
  - intros w. unfold sample_sequence.
    apply bind_ext. intros generated w1. apply bind_ext. intros comet w2.
    generalize (Z.to_nat length) as n. intros n. revert generated w2.
    induction n as [|n IH]; intros generated w2; simpl; [done|].
    rewrite (bind_ext _ _ _ _ IH). unfold bind.
    by rewrite (sample_step_first_sample model1 model2).
  - intros comet generated w.
    pose proof (sample_step_trace model1 num_samples temperature top_k top_p
                  is_xlnet comet generated w) as Hstep.
    destruct (if is_xlnet then xlnet_inputs generated
              else Ok (causal_inputs comet generated)) as [kwargs|e].
    + destruct Hstep as (evs & Htr & [->|[probs ->]]); eauto 10.
    + rewrite Hstep. exists []. rewrite app_nil_r. auto.
Qed.

Lemma assemble_conditioning_trace num_samples comet_input comet_mask w :
  (assemble_conditioning num_samples comet_input comet_mask w).2 = w.
Proof.
  unfold assemble_conditioning, bind, lift, ret, raise.
  destruct comet_input as [ci|]; [|done].
  destruct (unsqueeze_repeat ci num_samples); [|done].
  destruct comet_mask as [cm|]; [|done].
  by destruct (unsqueeze_repeat cm num_samples).
Qed.

Lemma assemble_conditioning_some num_samples ci cm w comet :
  (assemble_conditioning num_samples (Some ci) (Some cm) w).1 = Ok comet →
  comet = Some (replicate (Z.to_nat num_samples) ci,
                replicate (Z.to_nat num_samples) cm).
Proof.
  unfold assemble_conditioning, bind, lift, ret, unsqueeze_repeat.
  destruct (num_samples <? 0)%Z; simpl; [done|]. by intros [= <-].
Qed.

Lemma assemble_conditioning_ok num_samples comet_input comet_mask w :
  (0 ≤ num_samples)%Z → comet_input = None ∨ is_Some comet_mask →
  ∃ comet,
    assemble_conditioning num_samples comet_input comet_mask w = (Ok comet, w).
Proof.
  intros HN Hc. unfold assemble_conditioning, bind, lift, ret.
  destruct comet_input as [ci|]; [|eauto].
  destruct Hc as [|[cm ->]]; [done|].
  rewrite !unsqueeze_repeat_ok by done. eauto.
Qed.


Lemma xlnet_inputs_drop_conditioning generated kwargs :
  xlnet_inputs generated = Ok kwargs →
  kwargs !! "comet_input" = None ∧ kwargs !! "comet_mask" = None.
Proof.
  unfold xlnet_inputs.
  destruct (cat_dim1 generated (zeros2 0%Z 1 1)) as [input_ids|e]; [|done].
  destruct (decide (shape1 input_ids = 0)); [done|].
  intros [= <-]. by rewrite !lookup_insert_ne, !lookup_singleton_ne.
Qed.

Lemma causal_inputs_conditioning ci cm generated :
  causal_inputs (Some (ci, cm)) generated !! "comet_input" = Some (LongTensor3 ci)
  ∧ causal_inputs (Some (ci, cm)) generated !! "comet_mask" = Some (FloatTensor3 cm)
  ∧ causal_inputs (Some (ci, cm)) generated !! "input_ids"
    = Some (LongTensor2 generated).
Proof.
  unfold causal_inputs. split; [|split].
  - by rewrite lookup_insert_ne, lookup_insert_eq.
  - by rewrite lookup_insert_eq.
  - by rewrite !lookup_insert_ne, lookup_singleton_eq.
Qed.

(** C4 (as the code has it): when conditioning is supplied, every call of
    the scoring model in causal mode carries the replicated [comet_input] and
    [comet_mask], unchanged from step to step; in permutation mode the
    keyword arguments are rebuilt from scratch and carry neither. *)
Theorem conditioning_reaches_the_model_in_causal_mode_only
    model length context num_samples temperature top_k top_p is_xlnet ci cm w :
  ∃ evs,
    trace (sample_sequence model length context num_samples temperature top_k
             top_p is_xlnet (Some ci) (Some cm) w).2 = trace w ++ evs
    ∧ ∀ kwargs, CallModel kwargs ∈ evs →
        if is_xlnet
        then kwargs !! "comet_input" = None ∧ kwargs !! "comet_mask" = None
        else kwargs !! "comet_input"
             = Some (LongTensor3 (replicate (Z.to_nat num_samples) ci))
             ∧ kwargs !! "comet_mask"
               = Some (FloatTensor3 (replicate (Z.to_nat num_samples) cm)).
Proof.
  assert (∃ evs : list event, trace w = trace w ++ evs
            ∧ ∀ kwargs, CallModel kwargs ∈ evs →
                if is_xlnet
                then kwargs !! "comet_input" = None ∧ kwargs !! "comet_mask" = None
                else kwargs !! "comet_input"
                     = Some (LongTensor3 (replicate (Z.to_nat num_samples) ci))
                     ∧ kwargs !! "comet_mask"
                       = Some (FloatTensor3 (replicate (Z.to_nat num_samples) cm)))
    as Hnone.
  { exists []. rewrite app_nil_r. split; [done|]. by intros ? ?%elem_of_nil. }
  unfold sample_sequence. unfold bind at 1. unfold lift at 1.
  destruct (unsqueeze_repeat context num_samples) as [generated|e]; [|done].
  unfold bind at 1.
  pose proof (assemble_conditioning_trace num_samples (Some ci) (Some cm) w) as Hw.
  pose proof (assemble_conditioning_some num_samples ci cm w) as Hsome.
  destruct (assemble_conditioning num_samples (Some ci) (Some cm) w)
    as [[comet|e] w1]; simpl in *; subst w1; [|done].
  rewrite (Hsome comet eq_refl).
  apply sample_loop_trace. intros g kwargs.
  destruct is_xlnet.
  - apply xlnet_inputs_drop_conditioning.
  - intros [= <-]. split; apply causal_inputs_conditioning.
Qed.

Lemma set_last_zeros {A} (z x : A) n :
  set_last (zeros z (S n)) x = replicate n z ++ [x].
Proof.
  unfold set_last, zeros. rewrite length_replicate. simpl pred.
  rewrite replicate_S_end.
  rewrite insert_app_r_alt by (rewrite length_replicate; lia).
  by rewrite length_replicate, Nat.sub_diag.
Qed.

(** C9: in permutation mode, for a batch of one sequence [row] of length
    [L], the keyword arguments are the sequence with one placeholder token 0
    appended, a mask of [L+1] rows of [L+1] cells and a target map of one row
    of [L+1] cells; each of these rows is zero everywhere but at the
    placeholder column [L], where it is one; and these are the arguments the
    scoring model is called with. *)
Theorem xlnet_inputs_mask_one_placeholder_column row :
  let L := length row in
  let mask_row := replicate L fzero ++ [fone] in
  let kwargs : gmap string tensor :=
    <["input_ids" := LongTensor2 [row ++ [0%Z]]]>
      (<["perm_mask" := FloatTensor3 [replicate (S L) mask_row]]>
         {["target_mapping" := FloatTensor3 [[mask_row]]]}) in
  xlnet_inputs [row] = Ok kwargs
  ∧ length mask_row = S L
  ∧ (∀ j x, mask_row !! j = Some x → (j = L ∧ x = fone) ∨ (j < L ∧ x = fzero))
  ∧ ∀ model num_samples temperature top_k top_p comet w,
      ∃ evs,
        trace (sample_step model num_samples temperature top_k top_p true comet
                 [row] w).2 = trace w ++ CallModel kwargs :: evs.
Proof.
  intros L mask_row kwargs.
  assert (xlnet_inputs [row] = Ok kwargs) as Hkw.
  { unfold xlnet_inputs. change (zeros2 0%Z 1 1) with [[0%Z]].
    rewrite cat_dim1_single. simpl shape1.
    rewrite length_app, Nat.add_1_r. fold L.
    rewrite decide_False by done.
    unfold zeros3, zeros2, kwargs, mask_row.
    repeat progress change (replicate 1 ?x) with [x].
    change (alter (alter ?f 0) 0 [[?x]]) with [[f x]].
    change (map (map ?f) [?x]) with [f <$> x].
    by rewrite fmap_replicate, !set_last_zeros. }
  split; [done|]. split.
  { unfold mask_row. rewrite length_app, length_replicate. simpl. lia. }
  split.
  - intros j x. unfold mask_row. intros Hj.
    apply lookup_app_Some in Hj as [Hj|[Hlen Hj]].
    + apply lookup_replicate in Hj as [-> ?]. by right.
    + rewrite length_replicate in Hlen, Hj.
      apply list_lookup_singleton_Some in Hj as [? <-]. left. split; [lia|done].
  - intros model num_samples temperature top_k top_p comet w.
    pose proof (sample_step_trace model num_samples temperature top_k top_p true
                  comet [row] w) as Hstep.
    rewrite Hkw in Hstep. destruct Hstep as (evs & Htr & _). eauto.
Qed.

(** A step that finishes has called the scoring model once and
    [torch.multinomial] once, and has joined the drawn positions to the
    batch. *)
Lemma sample_step_ok
    model num_samples temperature top_k top_p is_xlnet comet generated w g' w' :
  sample_step model num_samples temperature top_k top_p is_xlnet comet
    generated w = (Ok g', w') →
  ∃ kwargs probs next_token g0 g1,
    trace w' = trace w ++ [CallModel kwargs; CallMultinomial probs num_samples]
    ∧ multinomial probs num_samples g0 = (Ok next_token, g1)
    ∧ cat_dim1 generated [next_token] = Ok g'.
Proof.
  unfold sample_step.
  unfold bind at 1.
  destruct ((if is_xlnet then lift (xlnet_inputs generated)
             else ret (causal_inputs comet generated)) w)
    as [[kwargs|e] w0] eqn:Hin; [|done].
  assert (w0 = w) as ->.
  { destruct is_xlnet; unfold lift, ret in Hin; by simplify_eq. }
  unfold bind, lift, call_model, call_multinomial, on_heap, alloc, load. simpl.
  destruct (model kwargs) as [outputs|e]; simpl; [|done].
  destruct (index_0_last outputs) as [row|e]; simpl; [|done].
  destruct (top_k_top_p_filtering _ _ _ _ _) as [[l|e] h]; simpl; [|done].
  destruct (h !! l) as [filtered|]; simpl; [|done].
  destruct (multinomial _ _ _) as [[next_token|e] g] eqn:Hdraw; simpl; [|done].
  destruct (cat_dim1 generated [next_token]) as [g1|e] eqn:Hcat; simpl; [|done].
  intros [= <- <-]. simpl. rewrite <-app_assoc. eauto 10.
Qed.
End sampler_facts.

Section single_sample.
Context {T : Torch} {L : TorchLaws T}.

(** With one sample, a loop of [n] steps that finishes has made [n] calls of
    the scoring model, each followed by one draw, and has appended exactly
    one token per step to the one sequence. *)
Lemma sample_loop_single_sample
    model temperature top_k top_p is_xlnet comet n row w g' w' :
  sample_loop model 1 temperature top_k top_p is_xlnet comet n [row] w
  = (Ok g', w') →
  ∃ tokens evs,
    g' = [row ++ tokens] ∧ length tokens = n
    ∧ trace w' = trace w ++ evs ∧ length evs = 2 * n.
Proof.
  revert row w. induction n as [|n IH]; intros row w; simpl.
  - intros [= <- <-]. exists [], []. by rewrite !app_nil_r.
  - unfold bind.
    destruct (sample_step model 1 temperature top_k top_p is_xlnet comet [row] w)
      as [[g1|e] w1] eqn:Hstep; [|done].
    apply sample_step_ok in Hstep
      as (kwargs & probs & next & g0 & g1' & Htr & Hdraw & Hcat).
    apply multinomial_length in Hdraw.
    destruct next as [|t [|??]]; simplify_eq/=.
    rewrite cat_dim1_single in Hcat. simplify_eq.
    intros Hloop. apply IH in Hloop as (tokens & evs & -> & Hlen & Htr' & Hevs).
    exists (t :: tokens), ([CallModel kwargs; CallMultinomial probs 1] ++ evs).
    rewrite <-app_assoc. split; [done|]. split; [simpl; lia|].
    split; [by rewrite Htr', Htr, <-app_assoc|]. simpl. lia.
Qed.

(** With one sample, a call that returns has taken exactly [length] steps
    and returns one sequence, the context followed by [length] tokens. *)
Lemma sample_sequence_single_sample
    model length context temperature top_k top_p is_xlnet comet_input
    comet_mask w g' w' :
  sample_sequence model length context 1 temperature top_k top_p is_xlnet
    comet_input comet_mask w = (Ok g', w') →
  ∃ tokens evs,
    g' = [context ++ tokens] ∧ List.length tokens = Z.to_nat length
    ∧ trace w' = trace w ++ evs ∧ List.length evs = 2 * Z.to_nat length.
Proof.
  unfold sample_sequence. unfold bind at 1. unfold lift at 1. simpl.
  unfold bind at 1.
  pose proof (assemble_conditioning_trace 1 comet_input comet_mask w) as Hw.
  destruct (assemble_conditioning 1 comet_input comet_mask w)
    as [[comet|e] w1]; simpl in *; subst w1; [|done].
  apply sample_loop_single_sample.
Qed.
End single_sample.

(** ** The metric aggregator *)

Section evaluate_facts.
Import QGEvalCap.
Context {num Gts Res : Type}.
Variable compute_score : scorer → Gts → Res → result (pyval num * pyval num).
Variables (gts : Gts) (res : Res).
Implicit Types (st : state num) (acc : list num * list (string * jval num)).

Lemma print_score_frame m sc st :
  calls _ (print_score num m sc st).2 = calls _ st
  ∧ results_file _ (print_score num m sc st).2 = results_file _ st.
Proof. by destruct sc. Qed.

Lemma record_list_frame items acc st :
  calls _ (record_list num items acc st).2 = calls _ st
  ∧ results_file _ (record_list num items acc st).2 = results_file _ st.
Proof.
  revert acc st. induction items as [|[[sc scs] m] items IH]; intros acc st.
  - done.
  - simpl. unfold bind.
    pose proof (print_score_frame m sc st) as [Hc Hf].
    destruct (print_score num m sc st) as [[x|e] st1]; simpl in *; [|done].
    destruct (IH (acc.1 ++ [x], dict_set num acc.2 m (JStrOf num x)) st1)
      as [Hc' Hf'].
    split; congruence.
Qed.

(** One scorer: its [compute_score] is called once, nothing is written, and
    an exception it raises is the outcome. *)
Lemma run_scorer_frame sm acc st :
  calls _ (run_scorer num Gts Res compute_score gts res sm acc st).2
  = calls _ st ++ [sm.1]
  ∧ results_file _ (run_scorer num Gts Res compute_score gts res sm acc st).2
    = results_file _ st
  ∧ ∀ e, compute_score sm.1 gts res = Raise e →
      (run_scorer num Gts Res compute_score gts res sm acc st).1 = Raise e.
Proof.
  unfold run_scorer, bind, call_scorer.
  destruct (compute_score sm.1 gts res) as [r|e]; simpl; [|by intuition congruence].
  destruct sm.2 as [ms|m].
  - unfold lift. destruct (zip3 num r.1 r.2 ms) as [items|e]; simpl; [|done].
    match goal with |- context [record_list num items acc ?s] =>
      pose proof (record_list_frame items acc s) as [Hc Hf] end.
    simpl in *. by rewrite Hc, Hf.
  - match goal with |- context [print_score num m r.1 ?s] =>
      pose proof (print_score_frame m r.1 s) as [Hc Hf];
      destruct (print_score num m r.1 s) as [[x|e] st1] end; simpl in *;
      by rewrite Hc, Hf.
Qed.

(** The loop over the scorers: they are called in order, nothing is
    written, the loop ends well only after calling every scorer, and a
    scorer that raises is the last one called. *)
Lemma run_scorers_frame l acc st :
  results_file _ (run_scorers num Gts Res compute_score gts res l acc st).2
  = results_file _ st
  ∧ ∃ called,
      calls _ (run_scorers num Gts Res compute_score gts res l acc st).2
      = calls _ st ++ called
      ∧ (is_ok (run_scorers num Gts Res compute_score gts res l acc st).1
         → called = l.*1)
      ∧ ∀ pre s post e,
          called = pre ++ s :: post → compute_score s gts res = Raise e →
          post = []
          ∧ (run_scorers num Gts Res compute_score gts res l acc st).1 = Raise e.
Proof.
  revert acc st. induction l as [|sm l IH]; intros acc st; simpl.
  - split; [done|]. exists []. rewrite app_nil_r. split; [done|].
    split; [done|]. intros [|??] ????; done.
  - unfold bind.
    pose proof (run_scorer_frame sm acc st) as (Hc & Hf & He).
    destruct (run_scorer num Gts Res compute_score gts res sm acc st)
      as [[acc1|e1] st1]; simpl in *.
    + destruct (IH acc1 st1) as (Hf' & called & Hc' & Hok & Hraise).
      split; [congruence|]. exists (sm.1 :: called).
      split; [by rewrite Hc', Hc, <-app_assoc|].
      split; [by intros ->%Hok|].
      intros [|s0 pre] s post e Heq Hs; simplify_eq/=.
      * by specialize (He e Hs).
      * by eapply Hraise.
    + split; [done|]. exists [sm.1]. split; [done|]. split; [done|].
      intros [|s0 pre] s post e Heq Hs; simplify_eq/=.
      * split; [done|]. by apply He.
      * by destruct pre.
Qed.

(** C5 (as the code has it): the scorers run one after the other with no
    exception handling.  When [evaluate] returns, all five scorers have been
    called, in order, and exactly one line has been appended to the results
    file; when it raises, nothing has been written; and a scorer whose
    [compute_score] raises is the last one called, its exception being the
    outcome of [evaluate]. *)
Theorem evaluate_stops_at_the_first_failing_scorer model_key st :
  let r := evaluate num Gts Res compute_score model_key gts res st in
  (∀ output, r.1 = Ok output →
     calls _ r.2 = calls _ st ++ [Bleu 4; Meteor; Rouge; Cider; BertScore]
     ∧ ∃ scores_dict,
         results_file _ r.2 = results_file _ st ++ [scores_dict])
  ∧ (∀ e, r.1 = Raise e → results_file _ r.2 = results_file _ st)
  ∧ (∀ pre s post e,
       calls _ r.2 = calls _ st ++ pre ++ s :: post →
       compute_score s gts res = Raise e →
       post = [] ∧ r.1 = Raise e ∧ results_file _ r.2 = results_file _ st).
Proof.
  intros r. unfold r, evaluate, bind.
  match goal with |- context [run_scorers num Gts Res compute_score gts res ?l ?a st] =>
    pose proof (run_scorers_frame l a st) as (Hf & called & Hc & Hok & Hraise);
    destruct (run_scorers num Gts Res compute_score gts res l a st)
      as [[acc|e0] st1] end; simpl in *.
  - pose proof (Hok I) as ->. rewrite Hc, Hf. split; [|split].
    + intros output _. eauto.
    + done.
    + intros pre s post e Heq Hs. apply app_inv_head in Heq.
      by destruct (Hraise pre s post e Heq Hs).
  - split; [done|]. split; [done|].
    intros pre s post e Heq Hs. rewrite Hc in Heq. apply app_inv_head in Heq.
    destruct (Hraise pre s post e Heq Hs) as [-> [= ->]]. done.
Qed.
End evaluate_facts.

(** ** The instance satisfies the laws *)

Section instance_facts.
Import QTorch.

Lemma qltb_Qlt x y : qltb (Fin x) (Fin y) = true ↔ (x < y)%Q.
Proof. unfold Qlt. simpl. apply Z.ltb_lt. Qed.


#[export] Instance laws : TorchLaws torch.
Proof.
  split.
  - intros [|x]; [done|]. simpl. apply Z.ltb_irrefl.
  - intros [|x] [|y] [|z] Hxy Hyz; try done.
    apply qltb_Qlt. apply qltb_Qlt in Hxy, Hyz. by eapply Qlt_trans.
  - intros [|x] [|y] [|z] Hxz; try done; auto.
    apply qltb_Qlt in Hxz.
    destruct (Qlt_le_dec x y) as [Hlt|Hle].
    + left. by apply qltb_Qlt.
    + right. apply qltb_Qlt. by eapply Qle_lt_trans.
  - intros l. apply length_map.
  - intros l p Hp. simpl in *. unfold qsoftmax in Hp.
    change (map ?f l) with (f <$> l) in Hp.
    apply list_elem_of_fmap in Hp as (? & -> & _). done.
  - intros [|x] [|q] Hq; try done.
    simpl in *. destruct (qltb (Fin (x + q)) (Fin x)) eqn:Hlt; [|done].
    apply qltb_Qlt in Hlt.
    assert (q < 0)%Q as Hq0.
    { apply (Qplus_lt_r _ _ x). by rewrite Qplus_0_r. }
    apply qltb_Qlt in Hq0. simpl in Hq0. congruence.
  - intros probs n g next g'. simpl. unfold qmultinomial.
    destruct (Z.leb_spec n 0); simpl; [done|].
    destruct (Z.ltb_spec (Z.of_nat (length (support probs))) n); [done|].
    intros [= <- <-]. rewrite length_take_le; lia.
Qed.
End instance_facts.

(** ** The theorems at work on the instance *)

Section examples.
Import QTorch.

(** With [top_k = 1] both entries that tie for the largest score survive. *)
Example top_k_keeps_ties :
  top_k_top_p_filtering 1%positive 1 (Fin 0) NegInf heap0
  = (Ok 1%positive,
     {[1%positive := [NegInf; Fin 3; NegInf; Fin 3; NegInf]]}).
Proof. vm_compute. reflexivity. Qed.

Lemma top_k_stage_suppresses_below_kth_witness :
  ∃ v',
    top_k_stage 1%positive 1 NegInf heap0 = (Ok tt, <[1%positive := v']> heap0)
    ∧ (qltb (Fin 0) (Fin 0) = false →
       top_k_top_p_filtering 1%positive 1 (Fin 0) NegInf heap0
       = (Ok 1%positive, <[1%positive := v']> heap0))
    ∧ length v' = length logits0
    ∧ (logits0 ≠ [] →
       ∃ kth, kth ∈ logits0
         ∧ 1 ≤ length (filter (λ x, qltb x kth = false) logits0)
         ∧ length (filter (λ x, qltb kth x = true) logits0) < 1
         ∧ ∀ i x, logits0 !! i = Some x →
             v' !! i = Some (if qltb x kth then NegInf else x))
    ∧ ((Z.of_nat (length logits0) ≤ 1)%Z → v' = logits0).
Proof.
  apply (top_k_stage_suppresses_below_kth
           (T := torch) heap0 1%positive logits0 1 (Fin 0) NegInf);
    [reflexivity | lia].
Defined.


Lemma filtering_disabled_is_identity_witness :
  top_k_top_p_filtering 1%positive 0 (Fin 0) NegInf heap0
  = (Ok 1%positive, heap0)
  ∧ heap0 !! 1%positive = Some logits0.
Proof.
  apply (filtering_disabled_is_identity (T := torch) heap0 1%positive logits0 NegInf).
  reflexivity.
Defined.


Lemma sample_sequence_raises_for_several_samples_witness :
  ∃ e w',
    sample_sequence (constant_model 2) 1 [5; 9]%Z 2 (Fin 1) 0 (Fin 0) false
      None None world0 = (Raise e, w').
Proof.
  apply (sample_sequence_raises_for_several_samples (T := torch)); lia.
Defined.

Lemma constant_biased_agree kwargs :
  match constant_model 2 kwargs, biased_model 2 kwargs with
  | Ok o1, Ok o2 => index_0_last o1 = index_0_last o2
  | Raise e1, Raise e2 => e1 = e2
  | _, _ => False
  end.
Proof.
  unfold constant_model, biased_model.
  destruct (kwargs !! "input_ids") as [[ids| |]|]; try reflexivity.
  destruct ids; reflexivity.
Defined.

Lemma sample_sequence_draws_from_first_sample_only_witness :
  (∀ w, sample_sequence (constant_model 2) 1 [5; 9]%Z 2 (Fin 1) 0 (Fin 0)
          false None None w
        = sample_sequence (biased_model 2) 1 [5; 9]%Z 2 (Fin 1) 0 (Fin 0)
            false None None w)
  ∧ (∀ comet generated w,
       ∃ evs,
         trace (sample_step (constant_model 2) 2 (Fin 1) 0 (Fin 0) false comet
                  generated w).2 = trace w ++ evs
         ∧ (evs = []
            ∨ ∃ kwargs, evs = [CallModel kwargs]
                ∨ ∃ probs, evs = [CallModel kwargs; CallMultinomial probs 2])).
Proof.
  apply (sample_sequence_draws_from_first_sample_only (T := torch)).
  exact constant_biased_agree.
Defined.

(** The two models differ on the second sample, and the run on two samples
    draws both tokens from the first sample's distribution before the
    concatenation fails. *)
Example second_sample_is_ignored :
  constant_model 2 {["input_ids" := LongTensor2 [[5]; [5]]%Z]}
  ≠ biased_model 2 {["input_ids" := LongTensor2 [[5]; [5]]%Z]}
  ∧ (sample_sequence (biased_model 2) 1 [5]%Z 2 (Fin 1) 0 (Fin 0) false
       None None world0).1 = Raise RuntimeError
  ∧ ∃ kwargs,
      trace (sample_sequence (biased_model 2) 1 [5]%Z 2 (Fin 1) 0 (Fin 0) false
               None None world0).2
      = [CallModel kwargs; CallMultinomial [Fin (1 # 2); Fin (1 # 2)] 2].
Proof.
  split; [|split].
  - vm_compute. discriminate.
  - vm_compute. reflexivity.
  - eexists. vm_compute. reflexivity.
Qed.


(** No count but a negative one stops the call: with zero samples and zero
    steps an empty batch is returned. *)
Example zero_samples_is_accepted :
  sample_sequence (constant_model 2) 0 [5]%Z 0 (Fin 1) 0 (Fin 0) false
    None None world0 = (Ok [], world0).
Proof. reflexivity. Qed.


(** C4, refuted as stated: in permutation mode the scoring model is called
    without the conditioning that was supplied. *)
Lemma xlnet_step_drops_conditioning :
  ∃ kwargs evs,
    trace (sample_sequence (constant_model 2) 1 [5]%Z 1 (Fin 1) 0 (Fin 0) true
             (Some [[7]]%Z) (Some [[Fin 1]]) world0).2
    = CallModel kwargs :: evs
    ∧ kwargs !! "input_ids" = Some (LongTensor2 [[5; 0]]%Z)
    ∧ kwargs !! "comet_input" = None
    ∧ kwargs !! "comet_mask" = None.
Proof.
  eexists _, _. split; [vm_compute; reflexivity|].
  split; [vm_compute; reflexivity|]. split; vm_compute; reflexivity.
Qed.

(** C5, refuted as stated: METEOR fails, ROUGE, CIDEr and the embedding
    scorer would succeed but are never run, and the BLEU scores already
    computed are not written. *)
Lemma failing_meteor_stops_evaluate :
  let r := QGEvalCap.evaluate Q unit unit meteor_fails "gpt2" tt tt
             (QGEvalCap.State Q [] [] []) in
  r.1 = Raise ModelError
  ∧ QGEvalCap.calls Q r.2 = [QGEvalCap.Bleu 4; QGEvalCap.Meteor]
  ∧ QGEvalCap.results_file Q r.2 = []
  ∧ is_ok (meteor_fails QGEvalCap.Rouge tt tt) = true
  ∧ is_ok (meteor_fails QGEvalCap.Cider tt tt) = true
  ∧ is_ok (meteor_fails QGEvalCap.BertScore tt tt) = true.
Proof. vm_compute. repeat split; reflexivity. Qed.

Lemma evaluate_stops_at_the_first_failing_scorer_witness :
  let r := QGEvalCap.evaluate Q unit unit all_succeed "gpt2" tt tt
             (QGEvalCap.State Q [] [] []) in
  QGEvalCap.calls Q r.2
  = [] ++ [QGEvalCap.Bleu 4; QGEvalCap.Meteor; QGEvalCap.Rouge;
           QGEvalCap.Cider; QGEvalCap.BertScore]
  ∧ ∃ scores_dict, QGEvalCap.results_file Q r.2 = [] ++ [scores_dict].
Proof.
  intros r.
  apply (proj1 (evaluate_stops_at_the_first_failing_scorer
                  all_succeed tt tt "gpt2" (QGEvalCap.State Q [] [] []))
           (replicate 8 (1 # 2)%Q)).
  reflexivity.
Defined.
End examples.

(** * More of the two files *)

(** ** The length of the generation *)

(** X1: The number of steps is never negative, it is at most the size of the
    model when the model has one, a negative request asks for as much as
    possible, and a request within the bounds is kept. *)
Theorem clamp_length_bounds length max_position_embeddings :
  (0 ≤ clamp_length length max_position_embeddings)%Z
  ∧ ((0 < max_position_embeddings)%Z →
     (clamp_length length max_position_embeddings ≤ max_position_embeddings)%Z
     ∧ ((length < 0)%Z →
        clamp_length length max_position_embeddings = max_position_embeddings))
  ∧ ((max_position_embeddings ≤ 0)%Z → (length < 0)%Z →
     clamp_length length max_position_embeddings = MAX_LENGTH)
  ∧ ((0 ≤ length)%Z →
     (max_position_embeddings ≤ 0)%Z ∨ (length ≤ max_position_embeddings)%Z →
     clamp_length length max_position_embeddings = length).
Proof.
  unfold clamp_length, MAX_LENGTH.
  destruct (Z.ltb_spec length 0), (Z.ltb_spec 0 max_position_embeddings),
    (Z.ltb_spec max_position_embeddings length); simpl; lia.
Qed.

(** X2: Clamping a clamped length changes nothing. *)
Theorem clamp_length_idempotent length max_position_embeddings :
  clamp_length (clamp_length length max_position_embeddings)
    max_position_embeddings
  = clamp_length length max_position_embeddings.
Proof.
  assert (∀ l, (0 ≤ l)%Z →
            (max_position_embeddings ≤ 0)%Z ∨ (l ≤ max_position_embeddings)%Z →
            clamp_length l max_position_embeddings = l) as Hfix.
  { intros l ? ?. unfold clamp_length.
    destruct (Z.ltb_spec l 0), (Z.ltb_spec 0 max_position_embeddings),
      (Z.ltb_spec max_position_embeddings l); simpl; lia. }
  apply Hfix; unfold clamp_length, MAX_LENGTH;
    destruct (Z.ltb_spec length 0), (Z.ltb_spec 0 max_position_embeddings),
      (Z.ltb_spec max_position_embeddings length); simpl; lia.
Qed.

(** ** Cutting a generation at its first period *)

Lemma str_find_range c s :
  str_find c s = (-1)%Z ∨ (0 ≤ str_find c s)%Z.
Proof.
  induction s as [|a s IH]; simpl; [by left|].
  destruct (Ascii.eqb a c); [right; lia|].
  destruct (Z.eqb_spec (str_find c s) (-1)); [by left|right; lia].
Qed.

Lemma str_take_find c s :
  (0 ≤ str_find c s)%Z →
  ∃ rest,
    s = str_take (Z.to_nat (str_find c s)) s +:+ String c rest
    ∧ str_find c (str_take (Z.to_nat (str_find c s)) s) = (-1)%Z.
Proof.
  induction s as [|a s IH]; simpl; [lia|].
  destruct (Ascii.eqb_spec a c) as [->|Hne].
  - intros _. exists s. done.
  - destruct (Z.eqb_spec (str_find c s) (-1)) as [|Hfound]; [lia|].
    intros _. destruct (str_find_range c s) as [|Hpos]; [done|].
    destruct (IH Hpos) as (rest & Heq & Hnone).
    exists rest. replace (Z.to_nat (str_find c s + 1)) with
      (S (Z.to_nat (str_find c s))) by lia.
    simpl. split.
    { change (String a s
              = String a (str_take (Z.to_nat (str_find c s)) s +:+ String c rest)).
      by f_equal. }
    destruct (Ascii.eqb_spec a c); [done|]. by rewrite Hnone.
Qed.

Lemma cut_at_period_no_period_aux gen :
  str_find "."%char (cut_at_period gen) = (-1)%Z.
Proof.
  unfold cut_at_period.
  destruct (Z.eqb_spec (str_find "."%char gen) (-1)) as [Hnone|Hfound]; [done|].
  destruct (str_find_range "."%char gen) as [|Hpos]; [done|].
  by destruct (str_take_find _ _ Hpos) as (rest & Heq & Hnone).
Qed.

(** X3: The cut generation holds no period; it is the whole generation when
    that holds none, and else the part before its first period. *)
Theorem cut_at_period_no_period gen :
  str_find "."%char (cut_at_period gen) = (-1)%Z
  ∧ (str_find "."%char gen = (-1)%Z → cut_at_period gen = gen)
  ∧ (str_find "."%char gen ≠ (-1)%Z →
     ∃ rest, gen = cut_at_period gen +:+ "." +:+ rest).
Proof.
  split; [apply cut_at_period_no_period_aux|].
  unfold cut_at_period.
  destruct (Z.eqb_spec (str_find "."%char gen) (-1)) as [Hnone|Hfound].
  - done.
  - destruct (str_find_range "."%char gen) as [|Hpos]; [done|].
    destruct (str_take_find _ _ Hpos) as (rest & Heq & Hnone).
    split; [done|]. intros _. by exists rest.
Qed.

(** ** Dicts in insertion order *)

Section odict.
Context {K V : Type} `{EqDecision K}.
Implicit Types (d : list (K * V)) (k : K) (v : V).

Lemma od_get_set_eq d k v : od_get (od_set d k v) k = Some v.
Proof.
  induction d as [|[k' v'] d IH]; simpl.
  - by rewrite decide_True.
  - destruct (decide (k' = k)); simpl.
    + by rewrite decide_True.
    + by rewrite decide_False.
Qed.

Lemma od_get_set_ne d k k' v : k ≠ k' → od_get (od_set d k v) k' = od_get d k'.
Proof.
  intros Hne. induction d as [|[k0 v0] d IH]; simpl.
  - by rewrite decide_False.
  - destruct (decide (k0 = k)) as [->|]; simpl.
    + by rewrite !decide_False.
    + destruct (decide (k0 = k')); [done|apply IH].
Qed.

Lemma od_set_keys_present d k v :
  is_Some (od_get d k) → (od_set d k v).*1 = d.*1.
Proof.
  induction d as [|[k0 v0] d IH]; simpl.
  - by intros [? ?].
  - destruct (decide (k0 = k)) as [->|]; simpl; [done|].
    intros Hk. f_equal. by apply IH.
Qed.

Lemma od_set_keys_absent d k v :
  od_get d k = None → (od_set d k v).*1 = d.*1 ++ [k].
Proof.
  induction d as [|[k0 v0] d IH]; simpl; [done|].
  destruct (decide (k0 = k)) as [->|]; simpl; [done|].
  intros Hk. f_equal. by apply IH.
Qed.

Lemma od_get_is_Some d k : is_Some (od_get d k) ↔ k ∈ d.*1.
Proof.
  induction d as [|[k0 v0] d IH]; simpl.
  - split; [by intros [? ?]|by intros ?%elem_of_nil].
  - destruct (decide (k0 = k)) as [->|].
    + split; [intros _; by left|eauto].
    + rewrite IH, elem_of_cons. split; [by right|].
      intros [?|?]; [congruence|done].
Qed.
End odict.

(** ** More on the filter *)

Section filter_more.
Context {T : Torch} {L : TorchLaws T}.
Implicit Types (h : gmap loc (list float)) (l : loc) (v : list float).

(** What the top-k stage leaves in the store. *)
Lemma top_k_stage_cases h l v top_k fv :
  h !! l = Some v →
  ∃ v1, top_k_stage l top_k fv h = (Ok tt, <[l := v1]> h)
        ∧ (v1 = v
           ∨ ∃ kth, kth ∈ v ∧ v1 = map (λ x, if fltb x kth then fv else x) v).
Proof.
  intros Hl.
  destruct (Z.le_gt_cases (Z.min top_k (Z.of_nat (length v))) 0) as [Hk|Hk].
  - exists v. rewrite insert_id by done.
    split; [by eapply top_k_stage_noop|by left].
  - destruct (top_k_stage_run h l v top_k fv Hl) as (kth & Hkth & Hrun); [lia|].
    eexists. split; [exact Hrun|]. right. exists kth. split; [|done].
    by destruct (sorted_lookup_rank v _ kth Hkth).
Qed.

(** X4: Filtering with both settings is filtering with [top_k] alone followed
    by filtering with [top_p] alone, on the same tensor. *)
Theorem filtering_composes_top_k_then_top_p h l v top_k top_p fv :
  h !! l = Some v →
  top_k_top_p_filtering l top_k top_p fv h
  = bind (top_k_top_p_filtering l top_k fzero fv)
         (λ l', top_k_top_p_filtering l' 0 top_p fv) h.
Proof.
  intros Hl.
  destruct (top_k_stage_cases h l v top_k fv Hl) as (v1 & Hrun & _).
  unfold bind at 1. rewrite !filtering_unfold, Hrun.
  rewrite (top_p_stage_noop _ l fzero) by apply fltb_irrefl.
  rewrite filtering_unfold.
  rewrite (top_k_stage_noop (<[l := v1]> h) l v1 0)
    by (try apply lookup_insert_eq; lia).
  done.
Qed.

End filter_more.

(** ** More on the sampler *)

Section sampler_more.
Context {T : Torch} {L : TorchLaws T}.
Implicit Types (w : world) (generated : list (list Z)).
Implicit Types (model : gmap string tensor → result (list (list (list float)))).
Implicit Types (is_xlnet : bool) (num_samples top_k : Z).

(** With at least one step to take, the call raises unless there is exactly
    one sample. *)
Lemma sample_sequence_raises_unless_one_sample
    model length context num_samples temperature top_k top_p is_xlnet
    comet_input comet_mask w :
  (1 ≤ length)%Z → num_samples ≠ 1%Z →
  ∃ e w', sample_sequence model length context num_samples temperature
            top_k top_p is_xlnet comet_input comet_mask w = (Raise e, w').
Proof.
  intros Hlen HN. unfold sample_sequence.
  destruct (Z.lt_ge_cases num_samples 0) as [Hneg|Hpos].
  { apply raises_bind_l. unfold lift.
    rewrite unsqueeze_repeat_negative by done. eauto. }
  rewrite (bind_ok _ _ w (replicate (Z.to_nat num_samples) context) w)
    by (unfold lift; by rewrite unsqueeze_repeat_ok by lia).
  apply raises_bind_r. intros comet w1.
  destruct (Z.to_nat length) as [|n] eqn:Hn; [lia|]. simpl.
  apply raises_bind_l. apply sample_step_needs_one_row.
  rewrite length_replicate. lia.
Qed.

(** X6: A request for no step, or for a negative number of steps, returns the
    replicated context without calling the scoring model. *)
Theorem sample_sequence_without_steps
    model length context num_samples temperature top_k top_p is_xlnet
    comet_input comet_mask w :
  (length ≤ 0)%Z → (0 ≤ num_samples)%Z →
  comet_input = None ∨ is_Some comet_mask →
  sample_sequence model length context num_samples temperature top_k top_p
    is_xlnet comet_input comet_mask w
  = (Ok (replicate (Z.to_nat num_samples) context), w).
Proof.
  intros Hlen HN Hc. unfold sample_sequence.
  rewrite (bind_ok _ _ w (replicate (Z.to_nat num_samples) context) w)
    by (unfold lift; by rewrite unsqueeze_repeat_ok by lia).
  destruct (assemble_conditioning_ok num_samples comet_input comet_mask w HN Hc)
    as [comet Hcomet].
  rewrite (bind_ok _ _ _ _ _ Hcomet).
  by replace (Z.to_nat length) with 0 by lia.
Qed.

Lemma xlnet_inputs_single (row : list Z) :
  ∃ kwargs, xlnet_inputs [row] = Ok kwargs
            ∧ kwargs !! "input_ids" = Some (LongTensor2 [row ++ [0%Z]]).
Proof.
  unfold xlnet_inputs. change (zeros2 0%Z 1 1) with [[0%Z]].
  rewrite cat_dim1_single. simpl shape1.
  rewrite decide_False by (rewrite length_app; simpl; lia).
  eexists. split; [done|]. apply lookup_insert_eq.
Qed.

Lemma causal_inputs_input_ids comet generated :
  causal_inputs comet generated !! "input_ids" = Some (LongTensor2 generated).
Proof.
  unfold causal_inputs. destruct comet as [[ci cm]|].
  - by rewrite !lookup_insert_ne, lookup_singleton_eq.
  - apply lookup_singleton_eq.
Qed.

(** One step on a batch of one sequence, with a scoring model and a draw
    that do their part. *)
Lemma sample_step_single_returns
    model temperature top_k top_p is_xlnet comet row w :
  (∀ kwargs r, kwargs !! "input_ids" = Some (LongTensor2 [r]) → r ≠ [] →
     ∃ b0 rest v, model kwargs = Ok (b0 :: rest) ∧ last b0 = Some v ∧ v ≠ []) →
  (∀ v g, v ≠ [] → ∃ t g', multinomial (softmax v) 1 g = (Ok [t], g')) →
  row ≠ [] ∨ is_xlnet = true →
  ∃ t w' evs,
    sample_step model 1 temperature top_k top_p is_xlnet comet [row] w
    = (Ok [row ++ [t]], w')
    ∧ trace w' = trace w ++ evs ∧ length evs = 2.
Proof.
  intros Hmodel Hdraw Hrow.
  assert (∃ kwargs r, r ≠ [] ∧ kwargs !! "input_ids" = Some (LongTensor2 [r])
            ∧ (if is_xlnet then lift (xlnet_inputs [row])
               else ret (causal_inputs comet [row])) w = (Ok kwargs, w))
    as (kwargs & r & Hr & Hids & Hin).
  { destruct is_xlnet.
    - destruct (xlnet_inputs_single row) as (kwargs & Hkw & Hids).
      exists kwargs, (row ++ [0%Z]). unfold lift. rewrite Hkw.
      split; [by destruct row|done].
    - destruct Hrow as [Hrow|]; [|done].
      exists (causal_inputs comet [row]), row.
      split; [done|]. split; [apply causal_inputs_input_ids|done]. }
  destruct (Hmodel kwargs r Hids Hr) as (b0 & rest & v & Hm & Hlast & Hv).
  unfold sample_step. rewrite (bind_ok _ _ _ _ _ Hin).
  unfold bind at 1. unfold call_model. rewrite Hm.
  unfold bind at 1. unfold lift at 1. simpl index_0_last. rewrite Hlast.
  unfold bind at 1. unfold on_heap at 1. unfold alloc. simpl.
  set (l := fresh (dom (heap w))).
  set (v0 := map (λ x, fdiv x temperature) v).
  assert (v0 ≠ []) as Hv0 by (unfold v0; by destruct v).
  destruct (filtering_run (<[l := v0]> (heap w)) l v0 top_k top_p neg_inf)
    as (v' & Hrun & Hlen & _); [apply lookup_insert_eq|by left|].
  unfold bind at 1. unfold on_heap at 1. simpl. rewrite Hrun.
  unfold bind at 1. unfold on_heap at 1, load. simpl.
  rewrite lookup_insert_eq.
  assert (v' ≠ []) as Hv' by (intros ->; by destruct v0).
  unfold bind at 1. unfold call_multinomial. simpl.
  destruct (Hdraw v' (rng_state w) Hv') as (t & g' & Hd). rewrite Hd.
  unfold lift. rewrite cat_dim1_single.
  eexists t, _, _. split; [done|]. simpl. rewrite <-app_assoc. done.
Qed.

(** X7: With one sample, a scoring model that returns logits over a non-empty
    vocabulary for every position of a one-sequence batch, and a draw that
    succeeds on a softmax output, the call returns: one sequence, the
    context followed by [length] tokens, after [length] calls of the model,
    each followed by one draw. *)
Theorem sample_sequence_single_sample_returns
    model length context temperature top_k top_p is_xlnet comet_input
    comet_mask w :
  (∀ kwargs r, kwargs !! "input_ids" = Some (LongTensor2 [r]) → r ≠ [] →
     ∃ b0 rest v, model kwargs = Ok (b0 :: rest) ∧ last b0 = Some v ∧ v ≠ []) →
  (∀ v g, v ≠ [] → ∃ t g', multinomial (softmax v) 1 g = (Ok [t], g')) →
  context ≠ [] ∨ is_xlnet = true →
  comet_input = None ∨ is_Some comet_mask →
  ∃ tokens w' evs,
    sample_sequence model length context 1 temperature top_k top_p is_xlnet
      comet_input comet_mask w = (Ok [context ++ tokens], w')
    ∧ List.length tokens = Z.to_nat length
    ∧ trace w' = trace w ++ evs ∧ List.length evs = 2 * Z.to_nat length.
Proof.
  intros Hmodel Hdraw Hctx Hc. unfold sample_sequence.
  rewrite (bind_ok _ _ w [context] w) by done.
  destruct (assemble_conditioning_ok 1 comet_input comet_mask w) as [comet Hcomet];
    [lia|done|].
  rewrite (bind_ok _ _ _ _ _ Hcomet).
  generalize (Z.to_nat length) as n. intros n.
  clear Hcomet. revert context w Hctx.
  induction n as [|n IH]; intros row w Hrow; simpl.
  - exists [], w, []. rewrite !app_nil_r. done.
  - destruct (sample_step_single_returns model temperature top_k top_p is_xlnet
                comet row w Hmodel Hdraw Hrow) as (t & w1 & evs1 & Hstep & Htr & Hevs).
    rewrite (bind_ok _ _ _ _ _ Hstep).
    destruct (IH (row ++ [t]) w1) as (tokens & w' & evs & Hloop & Hlen & Htr' & Hevs').
    { left. by destruct row. }
    exists (t :: tokens), w', (evs1 ++ evs).
    rewrite Hloop, <-app_assoc. split; [done|]. split; [simpl; lia|].
    split; [by rewrite Htr', Htr, <-app_assoc|].
    rewrite length_app. lia.
Qed.
End sampler_more.

(** ** The driver of [run_generation.py] *)

Section generation_driver_facts.
Context {T : Torch} {L : TorchLaws T} {Fields : Type}.
Implicit Types (c : collaborators (Fields := Fields)) (a : args).
Implicit Types (s : io) (record : anli_record (Fields := Fields)).

(** X8: With at least one token to generate, [_prompt_to_gen] returns only when
    there is exactly one sample; the text it returns then decodes exactly
    [length] tokens, the context being cut off, and the scoring model has
    been called [length] times, each call followed by one draw. *)
Theorem prompt_to_gen_returns_the_generated_tokens
    c a txt comet_event_inputs comet_attention_masks w :
  (1 ≤ args_length a)%Z →
  is_ok (prompt_to_gen c a txt comet_event_inputs comet_attention_masks w).1
  = true →
  args_num_samples a = 1%Z
  ∧ ∃ tokens evs,
      (prompt_to_gen c a txt comet_event_inputs comet_attention_masks w).1
      = Ok (tokenizer_decode c tokens)
      ∧ length tokens = Z.to_nat (args_length a)
      ∧ trace (prompt_to_gen c a txt comet_event_inputs comet_attention_masks w).2
        = trace w ++ evs
      ∧ length evs = 2 * Z.to_nat (args_length a).
Proof.
  intros Hlen. unfold prompt_to_gen.
  set (context_tokens := tokenizer_encode c _).
  unfold bind, lift, ret.
  destruct (sample_sequence _ _ _ _ _ _ _ _ _ _ w) as [[out|e] w1] eqn:Hrun;
    [|done].
  intros _.
  assert (args_num_samples a = 1%Z) as HN.
  { destruct (decide (args_num_samples a = 1%Z)) as [|Hne]; [done|].
    destruct (sample_sequence_raises_unless_one_sample (model c) (args_length a)
                context_tokens (args_num_samples a) (args_temperature a)
                (args_top_k a) (args_top_p a)
                (bool_decide (args_model_type a = "xlnet"))
                comet_event_inputs comet_attention_masks w Hlen Hne)
      as (e & w' & Hraise).
    congruence. }
  split; [done|]. rewrite HN in Hrun.
  apply sample_sequence_single_sample in Hrun
    as (tokens & evs & -> & Hlen' & Htr & Hevs).
  exists tokens, evs. simpl. by rewrite drop_app_length.
Qed.

Lemma process_record_written c a idx record s :
  io_written (process_record c a idx record s).2 = io_written s.
Proof.
  unfold process_record.
  destruct (if bool_decide (args_model_type a = "gpt2_for_anli_comet") then _
            else _) as [[tokens ci] cm].
  unfold bind at 1. destruct tokens as [tokens|]; [|done].
  unfold ret at 1. unfold bind at 1. unfold on_world.
  destruct (prompt_to_gen c a (join_space tokens) ci cm (io_world s))
    as [[gen|e] w1]; [|done].
  unfold bind, print, ret.
  destruct (bool_decide (idx < 5)); [|done].
  by destruct ci.
Qed.

(** What a record that has been processed looks like. *)
Lemma process_record_ok c a idx record s record' s' :
  process_record c a idx record s = (Ok record', s') →
  rec_fields record' = rec_fields record
  ∧ ∃ generations gen,
      rec_generations record' = Some generations
      ∧ od_get generations (args_model_type a) = Some [gen]
      ∧ (∀ k, k ≠ args_model_type a →
           od_get generations k = od_get (default [] (rec_generations record)) k)
      ∧ (args_model_type a = "gpt2_for_anli" → str_find "."%char gen = (-1)%Z).
Proof.
  unfold process_record.
  destruct (if bool_decide (args_model_type a = "gpt2_for_anli_comet") then _
            else _) as [[tokens ci] cm].
  unfold bind at 1. destruct tokens as [tokens|]; [|done].
  unfold ret at 1. unfold bind at 1. unfold on_world.
  destruct (prompt_to_gen c a (join_space tokens) ci cm (io_world s))
    as [[gen|e] w1]; [|done].
  set (gen' := if bool_decide (args_model_type a = "gpt2_for_anli")
               then cut_at_period gen else gen).
  intros Hret.
  assert (record' = AnliRecord (rec_fields record)
            (Some (od_set (default [] (rec_generations record))
                     (args_model_type a) [gen']))) as ->.
  { revert Hret. unfold bind, print, ret.
    destruct (bool_decide (idx < 5)); [destruct ci|];
      intros [= <- _]; by destruct (rec_generations record). }
  simpl. split; [done|]. eexists _, gen'. split; [done|].
  split; [apply od_get_set_eq|]. split.
  - intros k Hk. by apply od_get_set_ne.
  - intros Hmt. unfold gen'. rewrite bool_decide_eq_true_2 by done.
    apply cut_at_period_no_period_aux.
Qed.

Lemma process_records_written c a idx records s :
  io_written (process_records c a idx records s).2 = io_written s.
Proof.
  revert idx s. induction records as [|record records IH]; intros idx s; [done|].
  simpl. unfold bind at 1.
  pose proof (process_record_written c a idx record s) as Hw.
  destruct (process_record c a idx record s) as [[r|e] s1]; simpl in *; [|done].
  unfold bind, ret. specialize (IH (S idx) s1).
  destruct (process_records c a (S idx) records s1) as [[rs|e] s2]; simpl in *;
    congruence.
Qed.

Lemma process_records_ok c a idx records s records' s' :
  process_records c a idx records s = (Ok records', s') →
  Forall2 (λ record record',
             rec_fields record' = rec_fields record
             ∧ ∃ generations gen,
                 rec_generations record' = Some generations
                 ∧ od_get generations (args_model_type a) = Some [gen]
                 ∧ (∀ k, k ≠ args_model_type a →
                      od_get generations k
                      = od_get (default [] (rec_generations record)) k)
                 ∧ (args_model_type a = "gpt2_for_anli" →
                    str_find "."%char gen = (-1)%Z))
          records records'.
Proof.
  revert idx s records'.
  induction records as [|record records IH]; intros idx s records'; simpl.
  - intros [= <- _]. constructor.
  - unfold bind at 1.
    destruct (process_record c a idx record s) as [[r|e] s1] eqn:Hrec; [|done].
    unfold bind, ret.
    destruct (process_records c a (S idx) records s1) as [[rs|e] s2] eqn:Hrecs;
      [|done].
    intros [= <- <-]. constructor; [by eapply process_record_ok|by eapply IH].
Qed.

(** A record of a model type other than the two ANLI ones has no prompt:
    joining its tokens raises before anything else is done. *)
Lemma process_record_no_prompt c a idx record s :
  args_model_type a ≠ "gpt2_for_anli_comet" →
  args_model_type a ≠ "gpt2_for_anli" →
  process_record c a idx record s = (Raise TypeError, s).
Proof.
  intros H1 H2. unfold process_record.
  by rewrite !bool_decide_eq_false_2 by done.
Qed.

(** X9: Outside the ANLI task with one of its two model types, [main] never
    reaches the sampler: the world of the sampler is left as it was, nothing
    is printed in the loop, the run ends in a [TypeError] or, having had
    nothing to do, normally, and no generation is ever written. *)
Theorem main_samples_for_the_anli_task_only c a s :
  ¬ (is_Some (args_input_file a) ∧ args_task a = Some "anli"
     ∧ args_model_type a ∈ ["gpt2_for_anli_comet"; "gpt2_for_anli"]) →
  io_world (main c a s).2 = io_world s
  ∧ io_stdout (main c a s).2 = io_stdout s
  ∧ ((main c a s).1 = Raise TypeError ∧ io_written (main c a s).2 = io_written s
     ∨ (main c a s).1 = Ok tt
       ∧ (io_written (main c a s).2 = io_written s
          ∨ io_written (main c a s).2
            = io_written s ++ [([], args_output_file a)])).
Proof.
  intros Hnot. unfold main, main_driver. simpl.
  destruct (args_input_file a) as [input_file|] eqn:Hin.
  - destruct (args_task a) as [task|] eqn:Htask.
    + destruct (bool_decide (task = "anli")) eqn:Hanli.
      * apply bool_decide_eq_true_1 in Hanli as ->.
        assert (args_model_type a ≠ "gpt2_for_anli_comet"
                ∧ args_model_type a ≠ "gpt2_for_anli") as [H1 H2].
        { split; intros Heq; apply Hnot; rewrite Heq; set_solver. }
        destruct (read_jsonl_lines c input_file) as [|record records].
        { simpl. auto 10. }
        simpl. unfold bind.
        rewrite process_record_no_prompt by done. simpl. auto.
      * simpl. auto 10.
    + destruct (read_lines c input_file); simpl; auto 10.
  - unfold bind, raise, input, ret.
    destruct (bool_decide (args_prompt a = "")); simpl; auto.
Qed.

(** X10: In the ANLI task the output is written once, after the last record:
    a run that ends normally has written one line per record, in order, each
    record carrying one generation under its model type beside the
    generations it came with (for [gpt2_for_anli], a generation without a
    period); a run that raises has written nothing. *)
Theorem main_writes_all_records_or_nothing c a s input_file :
  args_input_file a = Some input_file → args_task a = Some "anli" →
  ((main c a s).1 = Ok tt →
   ∃ records',
     io_written (main c a s).2
     = io_written s ++ [(map (json_dumps c) records', args_output_file a)]
     ∧ Forall2 (λ record record',
                  rec_fields record' = rec_fields record
                  ∧ ∃ generations gen,
                      rec_generations record' = Some generations
                      ∧ od_get generations (args_model_type a) = Some [gen]
                      ∧ (∀ k, k ≠ args_model_type a →
                           od_get generations k
                           = od_get (default [] (rec_generations record)) k)
                      ∧ (args_model_type a = "gpt2_for_anli" →
                         str_find "."%char gen = (-1)%Z))
               (read_jsonl_lines c input_file) records')
  ∧ (∀ e, (main c a s).1 = Raise e → io_written (main c a s).2 = io_written s).
Proof.
  intros Hin Htask. unfold main, main_driver. simpl. rewrite Hin, Htask. simpl.
  unfold bind, write_items.
  match goal with |- context [process_records c ?a' 0 ?rs s] =>
    pose proof (process_records_written c a' 0 rs s) as Hw;
    pose proof (process_records_ok c a' 0 rs s) as Hok;
    destruct (process_records c a' 0 rs s) as [[records'|e] s1]
  end; simpl in *.
  - split; [|done]. intros _. exists records'. rewrite Hw. split; [done|].
    by eapply Hok.
  - split; [done|]. intros ? _. done.
Qed.
End generation_driver_facts.

(** ** The drivers of [eval.py] *)

Section eval_driver_facts.
Import EvalDriver.
Context {K R P num : Type} `{EqDecision K}.
Implicit Types (sources : list K) (references : list R) (predictions : list P).
Implicit Types (pairs : list (pair (K := K) (R := R) (P := P))).
Implicit Types (res : list (K * P)) (gts : list (K * list R)).

Lemma set_questions_fits pre pairs1 pairs2 references :
  length pairs1 = length references →
  set_questions (pre ++ pairs1 ++ pairs2) (length pre) references
  = Return (pre
            ++ zip_with (λ p line, Pair (tokenized_sentence p) (Some line)
                                     (prediction p)) pairs1 references
            ++ pairs2).
Proof.
  revert pre pairs1.
  induction references as [|line references IH]; intros pre pairs1 Hlen.
  - by destruct pairs1.
  - destruct pairs1 as [|p pairs1]; [done|]. simpl.
    rewrite list_lookup_middle by done.
    rewrite alter_app_r_alt, Nat.sub_diag by done. simpl.
    rewrite (cons_middle _ pre), app_assoc.
    replace (S (length pre)) with (length (pre ++ [Pair (tokenized_sentence p)
                                     (Some line) (prediction p)]))
      by (rewrite length_app; simpl; lia).
    rewrite IH by (simpl in Hlen; lia).
    by rewrite <-app_assoc.
Qed.

Lemma set_questions_overflow pre pairs1 references :
  length pairs1 < length references →
  set_questions (pre ++ pairs1) (length pre) references
  = Throw (Builtin IndexError).
Proof.
  revert pre pairs1.
  induction references as [|line references IH]; intros pre pairs1 Hlen;
    [simpl in Hlen; lia|].
  destruct pairs1 as [|p pairs1]; simpl.
  - rewrite app_nil_r. by rewrite lookup_ge_None_2.
  - rewrite list_lookup_middle by done.
    rewrite alter_app_r_alt, Nat.sub_diag by done. simpl.
    rewrite (cons_middle _ pre), app_assoc.
    replace (S (length pre)) with (length (pre ++ [Pair (tokenized_sentence p)
                                     (Some line) (prediction p)]))
      by (rewrite length_app; simpl; lia).
    apply IH. simpl in Hlen. lia.
Qed.

Lemma set_predictions_fits pairs idx (output : list P) :
  idx + length pairs ≤ length output →
  set_predictions pairs idx output
  = Return (zip_with (λ p o, Pair (tokenized_sentence p) (tokenized_question p)
                               (Some o)) pairs (drop idx output)).
Proof.
  revert idx. induction pairs as [|p pairs IH]; intros idx Hlen; [done|].
  simpl in *. destruct (lookup_lt_is_Some_2 output idx) as [o Ho]; [lia|].
  rewrite Ho, IH by lia. simpl. by rewrite (drop_S _ _ _ Ho).
Qed.

Lemma set_predictions_short pairs idx (output : list P) :
  idx ≤ length output < idx + length pairs →
  set_predictions pairs idx output = Throw (Builtin IndexError).
Proof.
  revert idx. induction pairs as [|p pairs IH]; intros idx Hlen;
    [simpl in Hlen; lia|].
  simpl in *. destruct (output !! idx) as [o|] eqn:Ho; [|done].
  apply lookup_lt_Some in Ho. by rewrite IH by lia.
Qed.

(** One turn of the grouping loop on a pair that has all its keys. *)
Lemma group_step k q o pairs res gts :
  group (Pair k (Some q) (Some o) :: pairs) res gts
  = group pairs (od_set res k o)
      (od_set (match od_get gts k with Some _ => gts | None => od_set gts k [] end)
         k (default [] (od_get gts k) ++ [q])).
Proof.
  simpl. unfold append_at, getitem.
  destruct (od_get gts k) as [l|] eqn:Hk; simpl.
  - by rewrite Hk.
  - by rewrite od_get_set_eq.
Qed.

Lemma group_step_keys k (o : P) (l : list R) res gts :
  res.*1 = gts.*1 →
  (od_set res k o).*1
  = (od_set (match od_get gts k with Some _ => gts | None => od_set gts k [] end)
       k l).*1.
Proof.
  intros Hkeys. destruct (od_get gts k) as [l0|] eqn:Hk.
  - assert (is_Some (od_get res k)) as Hres.
    { apply od_get_is_Some. rewrite Hkeys. apply od_get_is_Some. eauto. }
    by rewrite !od_set_keys_present by eauto.
  - assert (od_get res k = None) as Hres.
    { apply eq_None_not_Some. rewrite od_get_is_Some, Hkeys, <-od_get_is_Some.
      rewrite Hk. by intros [? ?]. }
    rewrite (od_set_keys_absent res) by done.
    rewrite (od_set_keys_present (od_set gts k [])) by (rewrite od_get_set_eq; eauto).
    by rewrite od_set_keys_absent, Hkeys by done.
Qed.

Lemma group_step_get_gts k k' (q : R) gts :
  od_get (od_set (match od_get gts k with Some _ => gts | None => od_set gts k [] end)
            k (default [] (od_get gts k) ++ [q])) k'
  = if decide (k = k') then Some (default [] (od_get gts k) ++ [q])
    else od_get gts k'.
Proof.
  destruct (decide (k = k')) as [->|Hne]; [apply od_get_set_eq|].
  rewrite od_get_set_ne by done.
  destruct (od_get gts k); [done|by rewrite od_get_set_ne].
Qed.

(** The grouping of pairs that have all their keys, from any [res] and
    [gts] with the same keys. *)
Lemma group_complete sources references predictions res gts :
  length references = length sources → length sources ≤ length predictions →
  res.*1 = gts.*1 →
  ∃ gts' res',
    group (zip_with (λ p o, Pair (tokenized_sentence p) (tokenized_question p)
                              (Some o))
             (zip_with (λ p line, Pair (tokenized_sentence p) (Some line)
                                    (prediction p))
                ((λ tup, @Pair K R P tup None None) <$> sources) references)
             predictions) res gts
    = Return (gts', res')
    ∧ res'.*1 = gts'.*1
    ∧ (∀ k, k ∈ gts'.*1 ↔ k ∈ gts.*1 ∨ k ∈ sources)
    ∧ (∀ k, od_get gts' k
            = match od_get gts k,
                    (filter (λ sr, sr.1 = k) (zip sources references)).*2 with
              | None, [] => None
              | o, l => Some (default [] o ++ l)
              end)
    ∧ (∀ k, od_get res' k
            = match last (filter (λ sp, sp.1 = k) (zip sources predictions)).*2 with
              | Some o => Some o
              | None => od_get res k
              end).
Proof.
  revert references predictions res gts.
  induction sources as [|k0 sources IH];
    intros references predictions res gts Hr Hp Hkeys.
  - destruct references; [|done]. simpl. exists gts, res.
    split; [done|]. split; [done|]. split.
    { intros k. split; [auto|]. by intros [?|?%elem_of_nil]. }
    split; [|done].
    intros k. destruct (od_get gts k); [by rewrite app_nil_r|done].
  - destruct references as [|q references]; [done|].
    destruct predictions as [|o predictions]; [simpl in Hp; lia|].
    simpl in Hr, Hp. simpl zip_with. rewrite group_step.
    destruct (IH references predictions (od_set res k0 o)
                (od_set (match od_get gts k0 with
                         | Some _ => gts | None => od_set gts k0 [] end)
                   k0 (default [] (od_get gts k0) ++ [q])))
      as (gts' & res' & Hrun & Hkeys' & Hdom & Hgts & Hres);
      [lia|lia|by apply group_step_keys|].
    exists gts', res'. split; [done|]. split; [done|]. split; [|split].
    + intros k. rewrite Hdom, <-(group_step_keys k0 o _ res gts Hkeys).
      rewrite <-!od_get_is_Some, elem_of_cons.
      destruct (decide (k0 = k)) as [->|Hne].
      * rewrite od_get_set_eq. split; [auto|]. intros _. left. eauto.
      * rewrite od_get_set_ne by done.
        assert (is_Some (od_get res k) ↔ is_Some (od_get gts k)) as Hiff
          by (by rewrite !od_get_is_Some, Hkeys).
        rewrite Hiff. split.
        -- intros [?|?]; auto.
        -- intros [?|[?|?]]; [auto|congruence|auto].
    + intros k. rewrite Hgts, group_step_get_gts. simpl zip.
      rewrite filter_cons. simpl.
      destruct (decide (k0 = k)) as [->|Hne]; simpl.
      * rewrite <-app_assoc. simpl.
        by destruct (od_get gts k).
      * done.
    + intros k. rewrite Hres. simpl zip. rewrite filter_cons. simpl.
      destruct (decide (k0 = k)) as [->|Hne]; simpl.
      * rewrite od_get_set_eq, last_cons.
        by destruct (last _).
      * by rewrite od_get_set_ne.
Qed.

Lemma filter_source_nil sources references k :
  length references = length sources →
  (filter (λ sr : K * R, sr.1 = k) (zip sources references)).*2 = [] ↔ k ∉ sources.
Proof.
  revert references. induction sources as [|k0 sources IH]; intros references Hlen.
  - split; [by intros _ ?%elem_of_nil|done].
  - destruct references as [|q references]; [done|]. simpl in Hlen. simpl zip.
    rewrite filter_cons, not_elem_of_cons. simpl.
    destruct (decide (k0 = k)) as [->|Hne]; simpl.
    + split; [done|by intros [? _]].
    + rewrite IH by lia. split; [by split|by intros [_ ?]].
Qed.

(** The pairs and the two dicts, for lists that fit. *)
Lemma build_complete sources references predictions :
  length references = length sources → length sources ≤ length predictions →
  ∃ gts res,
    build sources references predictions = Return (gts, res)
    ∧ res.*1 = gts.*1
    ∧ (∀ k, k ∈ gts.*1 ↔ k ∈ sources)
    ∧ (∀ k, od_get gts k
            = if decide (k ∈ sources)
              then Some (filter (λ sr, sr.1 = k) (zip sources references)).*2
              else None)
    ∧ (∀ k, od_get res k
            = last (filter (λ sp, sp.1 = k) (zip sources predictions)).*2).
Proof.
  intros Hr Hp. unfold build.
  pose proof (set_questions_fits [] ((λ tup, @Pair K R P tup None None) <$> sources)
                [] references) as Hq.
  simpl in Hq. rewrite app_nil_r in Hq.
  change (map ?f sources) with (f <$> sources).
  rewrite Hq by (by rewrite length_fmap). simpl. rewrite app_nil_r.
  rewrite set_predictions_fits
    by (rewrite length_zip_with, length_fmap; lia).
  simpl. rewrite drop_0.
  destruct (group_complete sources references predictions [] [] Hr Hp eq_refl)
    as (gts & res & Hrun & Hkeys & Hdom & Hgts & Hres).
  exists gts, res. split; [done|]. split; [done|]. split; [|split].
  - intros k. rewrite Hdom. split; [by intros [?%elem_of_nil|?]|auto].
  - intros k. rewrite Hgts. simpl.
    destruct (decide (k ∈ sources)) as [Hin|Hin].
    + destruct ((filter _ _).*2) eqn:Hf; [|done].
      by apply filter_source_nil in Hf.
    + by rewrite (proj2 (filter_source_nil sources references k Hr) Hin).
  - intros k. rewrite Hres. simpl. by destruct (last _).
Qed.

(** The grouping stops with [KeyError] at the first pair without a
    reference. *)
Lemma group_incomplete sources1 k sources2 references predictions res gts :
  length references = length sources1 →
  length sources1 < length predictions →
  group (zip_with (λ p o, Pair (tokenized_sentence p) (tokenized_question p)
                            (Some o))
           (zip_with (λ p line, Pair (tokenized_sentence p) (Some line)
                                  (prediction p))
              ((λ tup, @Pair K R P tup None None) <$> sources1) references
            ++ ((λ tup, @Pair K R P tup None None) <$> k :: sources2))
           predictions) res gts
  = Throw KeyError.
Proof.
  revert references predictions res gts.
  induction sources1 as [|k0 sources1 IH];
    intros references predictions res gts Hr Hp.
  - destruct references; [|done].
    destruct predictions as [|o predictions]; [simpl in Hp; lia|]. done.
  - destruct references as [|q references]; [done|].
    destruct predictions as [|o predictions]; [simpl in Hp; lia|].
    simpl in Hr, Hp. simpl zip_with. rewrite group_step.
    apply IH; lia.
Qed.

Variable compute_score :
  QGEvalCap.scorer → list (K * list R) → list (K * P) →
  result (QGEvalCap.pyval num * QGEvalCap.pyval num).

(** X11: With as many references as sources and at least as many predictions,
    [eval] hands the aggregator two dicts with the same keys, the sources in
    the order of their first occurrence: [gts] maps a source to all its
    references, in order, and [res] maps it to the prediction of its last
    occurrence; predictions beyond the sources are ignored. *)
Theorem eval_groups_by_source model_key sources references predictions st :
  length references = length sources → length sources ≤ length predictions →
  ∃ gts res,
    eval compute_score model_key sources references predictions st
    = match QGEvalCap.evaluate num _ _ compute_score model_key gts res st with
      | (Ok output, st') => (Return output, st')
      | (Raise e, st') => (Throw (Builtin e), st')
      end
    ∧ res.*1 = gts.*1
    ∧ (∀ k, k ∈ gts.*1 ↔ k ∈ sources)
    ∧ (∀ k, od_get gts k
            = if decide (k ∈ sources)
              then Some (filter (λ sr, sr.1 = k) (zip sources references)).*2
              else None)
    ∧ (∀ k, od_get res k
            = last (filter (λ sp, sp.1 = k) (zip sources predictions)).*2).
Proof.
  intros Hr Hp.
  destruct (build_complete sources references predictions Hr Hp)
    as (gts & res & Hbuild & Hrest).
  exists gts, res. split; [|done]. unfold eval. by rewrite Hbuild.
Qed.

(** X12: Lists that do not fit make [eval] raise before any scorer is run and
    before anything is written: [IndexError] for more references than
    sources or fewer predictions than sources, [KeyError] for fewer
    references than sources. *)
Theorem eval_raises_on_lists_that_do_not_fit
    model_key sources references predictions st :
  (length sources < length references →
   eval compute_score model_key sources references predictions st
   = (Throw (Builtin IndexError), st))
  ∧ (length references ≤ length sources →
     length predictions < length sources →
     eval compute_score model_key sources references predictions st
     = (Throw (Builtin IndexError), st))
  ∧ (length references < length sources →
     length sources ≤ length predictions →
     eval compute_score model_key sources references predictions st
     = (Throw KeyError, st)).
Proof.
  unfold eval, build. change (map ?f sources) with (f <$> sources).
  split; [|split].
  - intros Hlen.
    pose proof (set_questions_overflow []
                  ((λ tup, @Pair K R P tup None None) <$> sources) references) as Hq.
    simpl in Hq. rewrite Hq by (by rewrite length_fmap). done.
  - intros Hr Hp.
    rewrite <-(take_drop (length references) sources), fmap_app.
    pose proof (set_questions_fits []
                  ((λ tup, @Pair K R P tup None None)
                     <$> take (length references) sources)
                  ((λ tup, @Pair K R P tup None None)
                     <$> drop (length references) sources) references) as Hq.
    simpl in Hq. rewrite Hq by (rewrite length_fmap, length_take; lia).
    simpl. rewrite set_predictions_short; [done|].
    rewrite length_app, length_zip_with, !length_fmap, length_take, length_drop.
    lia.
  - intros Hr Hp.
    rewrite <-(take_drop (length references) sources), fmap_app.
    pose proof (set_questions_fits []
                  ((λ tup, @Pair K R P tup None None)
                     <$> take (length references) sources)
                  ((λ tup, @Pair K R P tup None None)
                     <$> drop (length references) sources) references) as Hq.
    simpl in Hq. rewrite Hq by (rewrite length_fmap, length_take; lia).
    simpl. rewrite set_predictions_fits.
    2:{ rewrite length_app, length_zip_with, !length_fmap, length_take,
          length_drop. lia. }
    simpl. rewrite drop_0.
    destruct (drop (length references) sources) as [|k sources2] eqn:Hdrop.
    { apply (f_equal length) in Hdrop. rewrite length_drop in Hdrop.
      simpl in Hdrop. lia. }
    rewrite group_incomplete; [done| |]; rewrite length_take; lia.
Qed.
End eval_driver_facts.

Section preprocess_facts.
Import EvalDriver.
Context {G num : Type}.
Implicit Types (t : tables (G := G)) (e : elem (G := G)).

Lemma od_set_keys_agree {V1 V2} (d1 : list (string * V1)) (d2 : list (string * V2))
    key v1 v2 :
  d1.*1 = d2.*1 → (od_set d1 key v1).*1 = (od_set d2 key v2).*1.
Proof.
  intros Hkeys. destruct (od_get d2 key) as [v|] eqn:Hk.
  - assert (is_Some (od_get d1 key)) as Hd1.
    { apply od_get_is_Some. rewrite Hkeys. apply od_get_is_Some. eauto. }
    by rewrite !od_set_keys_present by eauto.
  - assert (od_get d1 key = None) as Hd1.
    { apply eq_None_not_Some. rewrite od_get_is_Some, Hkeys, <-od_get_is_Some.
      rewrite Hk. by intros [? ?]. }
    by rewrite !od_set_keys_absent, Hkeys by done.
Qed.

Lemma tables_agree_set (sources : list (string * list (string * string)))
    (references : list (string * list string))
    (predictions : list (string * list G)) key s r p :
  tables_agree (sources, references, predictions) →
  length s = length r → length p = length r →
  tables_agree (od_set sources key s, od_set references key r,
                od_set predictions key p).
Proof.
  intros (HS & HP & Hlen) Hs Hp. split; [|split].
  - by apply od_set_keys_agree.
  - by apply od_set_keys_agree.
  - intros k. destruct (decide (key = k)) as [->|Hne].
    + rewrite !od_get_set_eq. simpl. by rewrite Hs, Hp.
    + rewrite !od_get_set_ne by done. apply Hlen.
Qed.

Lemma init_tables_agree keys t :
  tables_agree t →
  tables_agree (init_tables keys t)
  ∧ ∀ key, key ∈ (init_tables keys t).1.2.*1 ↔ key ∈ t.1.2.*1 ∨ key ∈ keys.
Proof.
  revert t. induction keys as [|k keys IH]; intros [[S Rf] Pd] Hagree; simpl.
  - split; [done|]. intros key. split; [auto|]. by intros [?|?%elem_of_nil].
  - destruct (IH (od_set S k [], od_set Rf k [], od_set Pd k [])) as [Hag Hkeys].
    { by apply tables_agree_set. }
    split; [done|]. intros key. rewrite Hkeys. simpl.
    rewrite <-!od_get_is_Some, elem_of_cons.
    destruct (decide (k = key)) as [->|Hne].
    + rewrite od_get_set_eq. split; [auto|]. intros _. left. eauto.
    + rewrite od_get_set_ne by done. split.
      * intros [?|?]; auto.
      * intros [?|[?|?]]; [auto|congruence|auto].
Qed.

Lemma add_elem_agree e hyp keys t t' :
  add_elem e hyp keys t = Return t' → tables_agree t →
  tables_agree t' ∧ t'.1.2.*1 = t.1.2.*1.
Proof.
  revert t. induction keys as [|key keys IH]; intros [[S Rf] Pd]; simpl.
  - by intros [= <-].
  - destruct (elem_generations e) as [g|]; [|done].
    destruct (od_get g key) as [gen|]; [|apply IH].
    unfold append_at, getitem.
    destruct (od_get Rf key) as [r|] eqn:HRf; simpl; [|done].
    destruct (od_get Pd key) as [p|] eqn:HPd; simpl; [|done].
    destruct (od_get S key) as [s|] eqn:HS; simpl; [|done].
    destruct (od_get (elem_fields e) "obs1") as [obs1|]; simpl; [|done].
    destruct (od_get (elem_fields e) "obs2") as [obs2|]; simpl; [|done].
    intros Hrec Hagree. apply IH in Hrec as [Hag Hkeys].
    + split; [done|]. rewrite Hkeys. simpl.
      apply od_set_keys_present. eauto.
    + destruct Hagree as (HSk & HPk & Hlen).
      destruct (Hlen key) as [Hs Hp]. rewrite HS, HRf in Hs.
      rewrite HPd, HRf in Hp. simpl in Hs, Hp. simplify_eq.
      apply tables_agree_set; [done|..]; rewrite !length_app; simpl; lia.
Qed.

Lemma add_elems_agree (generations : list (elem (G := G))) keys t t' :
  add_elems generations keys t = Return t' → tables_agree t →
  tables_agree t' ∧ t'.1.2.*1 = t.1.2.*1.
Proof.
  revert t. induction generations as [|e generations IH]; intros t; simpl.
  - by intros [= <-].
  - unfold getitem.
    destruct (od_get (elem_fields e) "label") as [label|]; simpl; [|done].
    destruct (od_get (elem_fields e) ("hyp" +:+ label)) as [hyp|]; simpl; [|done].
    destruct (add_elem e hyp keys t) as [t1|x] eqn:Hadd; simpl; [|done].
    intros Hrec Hagree.
    destruct (add_elem_agree _ _ _ _ _ Hadd Hagree) as [Hag1 Hk1].
    destruct (IH _ Hrec Hag1) as [Hag Hk]. split; [done|]. congruence.
Qed.

Lemma preprocess_tables_fit_aux (generations : list (elem (G := G))) keys t :
  preprocess generations keys = Return t → tables_agree t.
Proof.
  unfold preprocess.
  destruct (keys_list keys generations) as [ks|x] eqn:Hks; simpl; [|done].
  intros Hadd.
  destruct (init_tables_agree ks ([], [], [])) as [Hag0 _].
  { split; [done|]. split; [done|]. by intros key. }
  by destruct (add_elems_agree _ _ _ _ Hadd Hag0).
Qed.

(** X13: The dicts [preprocess] returns fit together: they have the same keys,
    those of the key list, and under each key as many sources as references
    as predictions. *)
Theorem preprocess_tables_fit (generations : list (elem (G := G))) keys
    sources references predictions :
  preprocess generations keys = Return (sources, references, predictions) →
  sources.*1 = references.*1 ∧ predictions.*1 = references.*1
  ∧ (∀ key s r p,
       od_get sources key = Some s → od_get references key = Some r →
       od_get predictions key = Some p →
       length s = length r ∧ length p = length r)
  ∧ (∀ ks, keys_list keys generations = Return ks →
           ∀ key, key ∈ references.*1 ↔ key ∈ ks).
Proof.
  unfold preprocess.
  destruct (keys_list keys generations) as [ks|x] eqn:Hks; simpl; [|done].
  intros Hadd.
  destruct (init_tables_agree ks ([], [], [])) as [Hag0 Hkeys0].
  { split; [done|]. split; [done|]. by intros key. }
  destruct (add_elems_agree _ _ _ _ Hadd Hag0) as [(HS & HP & Hlen) Hkeys].
  split; [done|]. split; [done|]. split.
  - intros key s r p Hs Hr Hp. destruct (Hlen key) as [H1 H2].
    rewrite Hs, Hr in H1. rewrite Hp, Hr in H2. simpl in *. by simplify_eq.
  - intros ks' [= <-] key. simpl in Hkeys. rewrite Hkeys, Hkeys0. simpl.
    split; [by intros [?%elem_of_nil|?]|auto].
Qed.

Variable compute_score :
  QGEvalCap.scorer → list (string * string * list string) →
  list (string * string * G) →
  result (QGEvalCap.pyval num * QGEvalCap.pyval num).

Lemma eval_keys_throw keys t st x :
  tables_agree t → (∀ key, key ∈ keys → key ∈ t.1.2.*1) →
  (eval_keys compute_score keys t st).1 = Throw x →
  ∃ err key gts res st0,
    x = Builtin err
    ∧ (QGEvalCap.evaluate num _ _ compute_score key gts res st0).1 = Raise err.
Proof.
  intros Hagree. revert st.
  induction keys as [|key keys IH]; intros st Hsub; simpl; [done|].
  destruct t as [[S Rf] Pd]. destruct Hagree as (HS & HP & Hlen).
  assert (key ∈ Rf.*1) as Hkey by (apply Hsub; by left).
  destruct (proj2 (od_get_is_Some Rf key) Hkey) as [r Hr].
  destruct (proj2 (od_get_is_Some S key)) as [s Hs]; [by rewrite HS|].
  destruct (proj2 (od_get_is_Some Pd key)) as [p Hp]; [by rewrite HP|].
  destruct (Hlen key) as [H1 H2]. rewrite Hs, Hr in H1. rewrite Hp, Hr in H2.
  simpl in H1, H2. simplify_eq.
  unfold getitem. rewrite Hs, Hr, Hp.
  destruct (build_complete s r p) as (gts & res & Hbuild & _); [lia|lia|].
  unfold eval. rewrite Hbuild.
  destruct (QGEvalCap.evaluate num _ _ compute_score key gts res st)
    as [[output|e] st1] eqn:Heval.
  - apply IH. intros k Hk. apply Hsub. by right.
  - simpl. intros [= <-]. exists e, key, gts, res, st. by rewrite Heval.
Qed.

(** X14: Once [preprocess] has returned, the script cannot fail on its own
    account: every [eval] finds its three lists, which fit, so that an
    exception that ends the script is one raised inside the aggregator. *)
Theorem script_fails_only_in_the_aggregator
    (generations : list (elem (G := G))) keys t st x :
  preprocess generations keys = Return t →
  (script compute_score generations keys st).1 = Throw x →
  ∃ err key gts res st0,
    x = Builtin err
    ∧ (QGEvalCap.evaluate num _ _ compute_score key gts res st0).1 = Raise err.
Proof.
  intros Hpre. unfold script. rewrite Hpre.
  destruct t as [[S Rf] Pd].
  pose proof (preprocess_tables_fit_aux _ _ _ Hpre) as Hagree.
  apply eval_keys_throw; [done|auto].
Qed.
End preprocess_facts.

(** ** What the aggregator records *)

Section evaluate_more.
Import QGEvalCap.
Context {num Gts Res : Type}.
Variable compute_score : scorer → Gts → Res → result (pyval num * pyval num).

(** X15: When BLEU returns four scores, with four lists of sentence scores, and
    the other scorers return one score each, [evaluate] returns the eight
    scores in the order of the scorers, prints them, and appends one dict to
    the results file: the model key, the BLEU scores as strings and the
    other scores as numbers. *)
Theorem evaluate_records_all_scores model_key gts res st
    b1 b2 b3 b4 s1 s2 s3 s4 m ms r rs c cs b bs :
  compute_score (Bleu 4) gts res
  = Ok (PyList num [PyFloat num b1; PyFloat num b2; PyFloat num b3; PyFloat num b4],
        PyList num [s1; s2; s3; s4]) →
  compute_score Meteor gts res = Ok (PyFloat num m, ms) →
  compute_score Rouge gts res = Ok (PyFloat num r, rs) →
  compute_score Cider gts res = Ok (PyFloat num c, cs) →
  compute_score BertScore gts res = Ok (PyFloat num b, bs) →
  evaluate num Gts Res compute_score model_key gts res st
  = (Ok [b1; b2; b3; b4; m; r; c; b],
     State num
       (calls num st ++ [Bleu 4; Meteor; Rouge; Cider; BertScore])
       (stdout num st
        ++ [("Bleu_1", b1); ("Bleu_2", b2); ("Bleu_3", b3); ("Bleu_4", b4);
            ("METEOR", m); ("ROUGE_L", r); ("CIDEr", c); ("Bert Score", b)])
       (results_file num st
        ++ [[("model_key", JStr num model_key);
             ("Bleu_1", JStrOf num b1); ("Bleu_2", JStrOf num b2);
             ("Bleu_3", JStrOf num b3); ("Bleu_4", JStrOf num b4);
             ("METEOR", JNum num m); ("ROUGE_L", JNum num r);
             ("CIDEr", JNum num c); ("Bert Score", JNum num b)]])).
Proof.
  intros HB HM HR HC HS.
  unfold evaluate, scorers, run_scorers, run_scorer, bind, call_scorer.
  simpl. rewrite HB. simpl. rewrite HM. simpl. rewrite HR. simpl.
  rewrite HC. simpl. rewrite HS. simpl.
  unfold write_results, ret. simpl.
  by rewrite <-!app_assoc.
Qed.
End evaluate_more.


(** ** What [preprocess] collects *)

Section preprocess_more.
Import EvalDriver.
Context {G : Type}.
Implicit Types (t : tables (G := G)) (e : elem (G := G)).

Lemma fmap_app_nil {A} (o : option (list A)) : (λ l, l ++ []) <$> o = o.
Proof. destruct o; simpl; [by rewrite app_nil_r|done]. Qed.

Lemma init_tables_get ks t key :
  (key ∈ ks →
   od_get (init_tables ks t).1.1 key = Some []
   ∧ od_get (init_tables ks t).1.2 key = Some []
   ∧ od_get (init_tables ks t).2 key = Some [])
  ∧ (key ∉ ks →
     od_get (init_tables ks t).1.1 key = od_get t.1.1 key
     ∧ od_get (init_tables ks t).1.2 key = od_get t.1.2 key
     ∧ od_get (init_tables ks t).2 key = od_get t.2 key).
Proof.
  revert t. induction ks as [|k ks IH]; intros [[S Rf] Pd]; simpl.
  - split; [by intros ?%elem_of_nil|done].
  - destruct (IH (od_set S k [], od_set Rf k [], od_set Pd k [])) as [Hin Hout].
    split.
    + intros Hkey. destruct (decide (key ∈ ks)) as [Hks|Hks]; [by apply Hin|].
      apply elem_of_cons in Hkey as [->|Hkey]; [|done].
      destruct (Hout Hks) as (-> & -> & ->). simpl.
      by rewrite !od_get_set_eq.
    + intros Hkey. apply not_elem_of_cons in Hkey as [Hne Hks].
      destruct (Hout Hks) as (-> & -> & ->). simpl.
      by rewrite !od_get_set_ne.
Qed.

Lemma init_tables_keys ks t :
  NoDup ks → (∀ k, k ∈ ks → k ∉ t.1.2.*1) →
  (init_tables ks t).1.2.*1 = t.1.2.*1 ++ ks.
Proof.
  revert t. induction ks as [|k ks IH]; intros [[S Rf] Pd] Hnd Hfresh; simpl.
  - by rewrite app_nil_r.
  - apply NoDup_cons in Hnd as [Hk Hnd]. simpl in Hfresh.
    assert (od_get Rf k = None) as Hnone.
    { apply eq_None_not_Some. rewrite od_get_is_Some. apply Hfresh. by left. }
    rewrite IH; simpl.
    + by rewrite od_set_keys_absent, <-app_assoc.
    + done.
    + intros k' Hk'. rewrite od_set_keys_absent by done.
      rewrite elem_of_app, list_elem_of_singleton.
      intros [Hin| ->]; [|done]. revert Hin. apply Hfresh. by right.
Qed.

(** One line: under each key of the list the three dicts get what the line
    has for the key, and the other keys keep their lists. *)
Lemma add_elem_get e hyp keys t t' key :
  NoDup keys → add_elem e hyp keys t = Return t' →
  (key ∈ keys →
   od_get t'.2 key
   = (λ l, l ++ option_list (elem_generations e ≫= λ g, od_get g key))
       <$> od_get t.2 key
   ∧ od_get t'.1.2 key
     = (λ l, l ++ option_list ((elem_generations e ≫= λ g, od_get g key)
                                ≫= λ _, Some hyp))
         <$> od_get t.1.2 key
   ∧ od_get t'.1.1 key
     = (λ l, l ++ option_list
                    ((elem_generations e ≫= λ g, od_get g key) ≫= λ _,
                     od_get (elem_fields e) "obs1" ≫= λ obs1,
                     od_get (elem_fields e) "obs2" ≫= λ obs2,
                     Some (obs1, obs2)))
         <$> od_get t.1.1 key)
  ∧ (key ∉ keys →
     od_get t'.2 key = od_get t.2 key
     ∧ od_get t'.1.2 key = od_get t.1.2 key
     ∧ od_get t'.1.1 key = od_get t.1.1 key).
Proof.
  intros Hnd. revert t.
  induction Hnd as [|key0 keys Hkey0 Hnd IH]; intros [[S Rf] Pd]; simpl.
  - intros [= <-]. split; [by intros ?%elem_of_nil|done].
  - destruct (elem_generations e) as [g|] eqn:Hg; [|done]. simpl.
    destruct (od_get g key0) as [gen|] eqn:Hgen.
    + unfold append_at, getitem.
      destruct (od_get Rf key0) as [r|] eqn:HRf; simpl; [|done].
      destruct (od_get Pd key0) as [p|] eqn:HPd; simpl; [|done].
      destruct (od_get S key0) as [s|] eqn:HS; simpl; [|done].
      destruct (od_get (elem_fields e) "obs1") as [obs1|]; simpl; [|done].
      destruct (od_get (elem_fields e) "obs2") as [obs2|]; simpl; [|done].
      intros Hrec. destruct (IH _ Hrec) as [Hin Hout]. simpl in *. split.
      * intros Hkey. destruct (decide (key = key0)) as [->|Hne].
        -- destruct (Hout Hkey0) as (-> & -> & ->).
           rewrite !od_get_set_eq, Hgen, HPd, HRf, HS. done.
        -- apply elem_of_cons in Hkey as [?|Hkey]; [done|].
           destruct (Hin Hkey) as (-> & -> & ->).
           by rewrite !od_get_set_ne.
      * intros Hkey. apply not_elem_of_cons in Hkey as [Hne Hkey].
        destruct (Hout Hkey) as (-> & -> & ->).
        by rewrite !od_get_set_ne.
    + intros Hrec. destruct (IH _ Hrec) as [Hin Hout]. simpl in *. split.
      * intros Hkey. destruct (decide (key = key0)) as [->|Hne].
        -- destruct (Hout Hkey0) as (-> & -> & ->).
           rewrite Hgen. simpl. by rewrite !fmap_app_nil.
        -- apply elem_of_cons in Hkey as [?|Hkey]; [done|]. by apply Hin.
      * intros Hkey. apply not_elem_of_cons in Hkey as [Hne Hkey].
        by apply Hout.
Qed.

Lemma add_elems_get (generations : list (elem (G := G))) keys t t' key :
  NoDup keys → add_elems generations keys t = Return t' → key ∈ keys →
  od_get t'.2 key
  = (λ l, l ++ omap (λ e, elem_generations e ≫= λ g, od_get g key) generations)
      <$> od_get t.2 key
  ∧ od_get t'.1.2 key
    = (λ l, l ++ omap (λ e, (elem_generations e ≫= λ g, od_get g key) ≫= λ _,
                            od_get (elem_fields e) "label" ≫= λ label,
                            od_get (elem_fields e) ("hyp" +:+ label))
                   generations)
        <$> od_get t.1.2 key
  ∧ od_get t'.1.1 key
    = (λ l, l ++ omap (λ e, (elem_generations e ≫= λ g, od_get g key) ≫= λ _,
                            od_get (elem_fields e) "obs1" ≫= λ obs1,
                            od_get (elem_fields e) "obs2" ≫= λ obs2,
                            Some (obs1, obs2))
                   generations)
        <$> od_get t.1.1 key.
Proof.
  intros Hnd Hadd Hkey. revert t Hadd.
  induction generations as [|e generations IH]; intros t; simpl.
  - intros [= <-]. by rewrite !fmap_app_nil.
  - unfold getitem.
    destruct (od_get (elem_fields e) "label") as [label|] eqn:Hlabel;
      simpl; [|done].
    destruct (od_get (elem_fields e) ("hyp" +:+ label)) as [hyp|] eqn:Hhyp;
      simpl; [|done].
    destruct (add_elem e hyp keys t) as [t1|x] eqn:Hadd; simpl; [|done].
    intros Hrec. destruct (IH _ Hrec) as (HP & HR & HS).
    destruct (proj1 (add_elem_get _ _ _ _ _ key Hnd Hadd) Hkey)
      as (HP1 & HR1 & HS1).
    rewrite HP, HR, HS, HP1, HR1, HS1, <-!option_fmap_compose.
    split; [|split]; apply option_fmap_ext; intros l; simpl;
      rewrite <-app_assoc; do 2 f_equal.
    + by destruct (elem_generations e ≫= λ g, od_get g key).
    + by destruct (elem_generations e ≫= λ g, od_get g key).
    + destruct (elem_generations e ≫= λ g, od_get g key); simpl; [|done].
      by destruct (od_get (elem_fields e) "obs1" ≫= _).
Qed.

(** X16: For a key list without repetition, [preprocess] returns dicts whose keys
    are the key list, in order; under a key, [predictions] holds the
    generations under that key of the lines that have one, in the order of
    the file, [references] the labelled hypothesis of those lines and
    [sources] their two observations. *)
Theorem preprocess_collects_by_key (generations : list (elem (G := G))) keys ks
    sources references predictions :
  preprocess generations keys = Return (sources, references, predictions) →
  keys_list keys generations = Return ks → NoDup ks →
  references.*1 = ks
  ∧ ∀ key, key ∈ ks →
      od_get predictions key
      = Some (omap (λ e, elem_generations e ≫= λ g, od_get g key) generations)
      ∧ od_get references key
        = Some (omap (λ e, (elem_generations e ≫= λ g, od_get g key) ≫= λ _,
                           od_get (elem_fields e) "label" ≫= λ label,
                           od_get (elem_fields e) ("hyp" +:+ label))
                  generations)
      ∧ od_get sources key
        = Some (omap (λ e, (elem_generations e ≫= λ g, od_get g key) ≫= λ _,
                           od_get (elem_fields e) "obs1" ≫= λ obs1,
                           od_get (elem_fields e) "obs2" ≫= λ obs2,
                           Some (obs1, obs2))
                  generations).
Proof.
  unfold preprocess. intros Hpre Hks Hnd. rewrite Hks in Hpre. simpl in Hpre.
  split.
  - destruct (init_tables_agree (G := G) ks ([], [], [])) as [Hag0 _].
    { split; [done|]. split; [done|]. by intros key. }
    destruct (add_elems_agree _ _ _ _ Hpre Hag0) as [_ Hkeys].
    simpl in Hkeys. rewrite Hkeys, init_tables_keys; [done|done|].
    intros k _. apply not_elem_of_nil.
  - intros key Hkey.
    destruct (add_elems_get _ _ _ _ key Hnd Hpre Hkey) as (HP & HR & HS).
    destruct (proj1 (init_tables_get ks (([], [], []) : tables) key) Hkey)
      as (HS0 & HR0 & HP0).
    simpl in *. by rewrite HP, HR, HS, HP0, HR0, HS0.
Qed.
End preprocess_more.

(** ** What a run of the script leaves in the results file *)

Section results_lines.
Import QGEvalCap.
Context {num Gts Res : Type}.
Variable compute_score : scorer → Gts → Res → result (pyval num * pyval num).
Variables (gts : Gts) (res : Res).
Implicit Types (st : state num) (acc : list num * list (string * jval num)).
Implicit Types (d : list (string * jval num)) (kv : string * jval num).

Lemma dict_set_head d k v kv :
  head d = Some kv → kv.1 ≠ k → head (dict_set num d k v) = Some kv.
Proof.
  destruct d as [|[k' v'] d]; simpl; [done|]. intros [= <-] Hne. simpl in Hne.
  by rewrite decide_False.
Qed.

Lemma record_list_head items acc st acc' st' kv :
  record_list num items acc st = (Ok acc', st') →
  head acc.2 = Some kv → (∀ item, item ∈ items → item.2 ≠ kv.1) →
  head acc'.2 = Some kv.
Proof.
  revert acc st. induction items as [|[[sc scs] m] items IH]; intros acc st; simpl.
  - by intros [= <- <-].
  - unfold bind.
    destruct (print_score num m sc st) as [[x|e] st1]; simpl; [|done].
    intros Hrec Hhead Hnames. eapply IH; [exact Hrec| |].
    + simpl. apply dict_set_head; [done|].
      intros Heq. by apply (Hnames (sc, scs, m)); [left|].
    + intros item Hitem. apply Hnames. by right.
Qed.

Lemma run_scorer_head sm acc st acc' st' kv :
  run_scorer num Gts Res compute_score gts res sm acc st = (Ok acc', st') →
  head acc.2 = Some kv → names_differ kv.1 sm → head acc'.2 = Some kv.
Proof.
  unfold run_scorer, names_differ, bind, call_scorer.
  destruct (compute_score sm.1 gts res) as [r|e]; simpl; [|done].
  destruct sm.2 as [ms|m].
  - unfold lift. destruct (zip3 num r.1 r.2 ms) as [items|e] eqn:Hzip; simpl; [|done].
    intros Hrec Hhead Hnames. eapply record_list_head; [exact Hrec|done|].
    intros [[sc scs] m] Hitem Heq. simpl in Heq. subst m. apply Hnames.
    unfold zip3 in Hzip. destruct r.1 as [|a]; [done|].
    destruct r.2 as [|b]; [done|]. injection Hzip as <-.
    by apply elem_of_zip_r in Hitem.
  - destruct (print_score num m r.1 _) as [[x|e] st1]; simpl; [|done].
    intros [= <- <-] Hhead Hne. simpl. by apply dict_set_head.
Qed.

Lemma run_scorers_head l acc st acc' st' kv :
  run_scorers num Gts Res compute_score gts res l acc st = (Ok acc', st') →
  head acc.2 = Some kv → Forall (names_differ kv.1) l → head acc'.2 = Some kv.
Proof.
  revert acc st. induction l as [|sm l IH]; intros acc st; simpl.
  - by intros [= <- <-].
  - unfold bind.
    destruct (run_scorer num Gts Res compute_score gts res sm acc st)
      as [[acc1|e1] st1] eqn:Hrun; simpl; [|done].
    intros Hrec Hhead [Hsm Hl]%Forall_cons.
    eapply IH; [exact Hrec| |done]. by eapply run_scorer_head.
Qed.

Lemma scorers_names_differ : Forall (names_differ "model_key") scorers.
Proof.
  unfold scorers, names_differ. repeat apply Forall_cons_2; simpl; try done.
  intros Hin. repeat (apply elem_of_cons in Hin as [Hin|Hin]; [discriminate Hin|]).
  by apply elem_of_nil in Hin.
Qed.

(** A call of [evaluate] that returns has run the five scorers and appended
    one dict, whose first entry is the model key. *)
Lemma evaluate_line model_key st output st' :
  evaluate num Gts Res compute_score model_key gts res st = (Ok output, st') →
  calls _ st' = calls _ st ++ [Bleu 4; Meteor; Rouge; Cider; BertScore]
  ∧ ∃ d, results_file _ st' = results_file _ st ++ [d]
         ∧ head d = Some ("model_key", JStr num model_key).
Proof.
  unfold evaluate, bind.
  match goal with |- context [run_scorers num Gts Res compute_score gts res ?l ?a st] =>
    pose proof (run_scorers_frame compute_score gts res l a st)
      as (Hf & called & Hc & Hok & _);
    pose proof (run_scorers_head l a st) as Hhead;
    destruct (run_scorers num Gts Res compute_score gts res l a st)
      as [[acc|e0] st1] end; simpl in *; [|done].
  intros [= <- <-]. simpl. rewrite Hc, Hf, (Hok I). split; [done|].
  exists acc.2. split; [done|].
  apply (Hhead acc st1 ("model_key", JStr num model_key));
    [done|done|apply scorers_names_differ].
Qed.
End results_lines.

Section script_more.
Import EvalDriver.
Context {G num : Type}.
Variable compute_score :
  QGEvalCap.scorer → list (string * string * list string) →
  list (string * string * G) →
  result (QGEvalCap.pyval num * QGEvalCap.pyval num).

Lemma eval_keys_lines keys (t : tables (G := G)) st :
  (eval_keys compute_score keys t st).1 = Return tt →
  ∃ lines,
    QGEvalCap.results_file _ (eval_keys compute_score keys t st).2
    = QGEvalCap.results_file _ st ++ lines
    ∧ head <$> lines
      = (λ key, Some ("model_key", QGEvalCap.JStr num key)) <$> keys
    ∧ QGEvalCap.calls _ (eval_keys compute_score keys t st).2
      = QGEvalCap.calls _ st
        ++ (keys ≫= λ _, [QGEvalCap.Bleu 4; QGEvalCap.Meteor; QGEvalCap.Rouge;
                          QGEvalCap.Cider; QGEvalCap.BertScore]).
Proof.
  revert st. induction keys as [|key keys IH]; intros st; simpl.
  - intros _. exists []. by rewrite !app_nil_r.
  - destruct t as [[S Rf] Pd].
    destruct (getitem S key) as [s|]; [|done].
    destruct (getitem Rf key) as [r|]; [|done].
    destruct (getitem Pd key) as [p|]; [|done].
    unfold eval. destruct (build s r p) as [[gts res]|x]; [|done].
    destruct (QGEvalCap.evaluate num _ _ compute_score key gts res st)
      as [[output|e] st1] eqn:Heval; [|done].
    apply evaluate_line in Heval as (Hc & d & Hf & Hd).
    intros Hrec. destruct (IH st1 Hrec) as (lines & Hf' & Hlines & Hc').
    exists (d :: lines). rewrite Hf', Hf, Hc', Hc, <-!app_assoc.
    split; [done|]. split; [|done]. by rewrite !fmap_cons, Hd, Hlines.
Qed.

(** X17: A run of the script that ends well has appended one line per key of
    [references] to the results file, in the order of the keys, each
    starting with its model key; and it has run the five scorers once per
    key. *)
Theorem script_writes_one_line_per_key
    (generations : list (elem (G := G))) keys t st :
  preprocess generations keys = Return t →
  (script compute_score generations keys st).1 = Return tt →
  ∃ lines,
    QGEvalCap.results_file _ (script compute_score generations keys st).2
    = QGEvalCap.results_file _ st ++ lines
    ∧ head <$> lines
      = (λ key, Some ("model_key", QGEvalCap.JStr num key)) <$> t.1.2.*1
    ∧ QGEvalCap.calls _ (script compute_score generations keys st).2
      = QGEvalCap.calls _ st
        ++ (t.1.2.*1 ≫= λ _, [QGEvalCap.Bleu 4; QGEvalCap.Meteor;
                              QGEvalCap.Rouge; QGEvalCap.Cider;
                              QGEvalCap.BertScore]).
Proof.
  unfold script. intros ->. apply eval_keys_lines.
Qed.
End script_more.

(** ** What the loop over the records prints *)

Section generation_driver_prints.
Context {T : Torch} {Fields : Type}.
Implicit Types (c : collaborators (Fields := Fields)) (a : args).
Implicit Types (s : io) (record : anli_record (Fields := Fields)).

Lemma process_record_stdout c a idx record s record' s' :
  process_record c a idx record s = (Ok record', s') →
  io_stdout s'
  = io_stdout s
    ++ (if bool_decide (idx < 5) then
          if bool_decide (args_model_type a = "gpt2_for_anli_comet") then
            PrintContext (record_to_text_tokens_with_comet_pred c record).1.1
            :: match (record_to_text_tokens_with_comet_pred c record).1.2 with
               | Some ci =>
                   [PrintCometInput ci;
                    PrintCometMask
                      (record_to_text_tokens_with_comet_pred c record).2]
               | None => []
               end
          else [PrintContext (anli_record_to_gpt_prompt c record)]
        else []).
Proof.
  unfold process_record.
  destruct (bool_decide (args_model_type a = "gpt2_for_anli_comet")).
  - destruct (record_to_text_tokens_with_comet_pred c record) as [[tokens ci] cm].
    simpl. unfold bind at 1. unfold ret at 1. unfold bind at 1. unfold on_world.
    destruct (prompt_to_gen c a (join_space tokens) ci cm (io_world s))
      as [[gen|e] w1]; [|done].
    unfold bind, print, ret.
    destruct (bool_decide (idx < 5)).
    + destruct ci; intros [= _ <-]; simpl; [|done].
      by rewrite <-!app_assoc.
    + intros [= _ <-]. simpl. by rewrite app_nil_r.
  - destruct (bool_decide (args_model_type a = "gpt2_for_anli")); [|done].
    unfold bind at 1. unfold ret at 1. unfold bind at 1. unfold on_world.
    destruct (prompt_to_gen c a _ None None (io_world s))
      as [[gen|e] w1]; [|done].
    unfold bind, print, ret.
    destruct (bool_decide (idx < 5)); intros [= _ <-]; simpl; [done|].
    by rewrite app_nil_r.
Qed.

Lemma process_records_stdout c a idx records s records' s' :
  process_records c a idx records s = (Ok records', s') →
  io_stdout s'
  = io_stdout s
    ++ (take (5 - idx) records ≫= λ record,
          if bool_decide (args_model_type a = "gpt2_for_anli_comet") then
            PrintContext (record_to_text_tokens_with_comet_pred c record).1.1
            :: match (record_to_text_tokens_with_comet_pred c record).1.2 with
               | Some ci =>
                   [PrintCometInput ci;
                    PrintCometMask
                      (record_to_text_tokens_with_comet_pred c record).2]
               | None => []
               end
          else [PrintContext (anli_record_to_gpt_prompt c record)]).
Proof.
  revert idx s records'.
  induction records as [|record records IH]; intros idx s records'; simpl.
  - intros [= _ <-]. by rewrite take_nil, app_nil_r.
  - unfold bind at 1.
    destruct (process_record c a idx record s) as [[r|e] s1] eqn:Hrec; [|done].
    unfold bind, ret.
    destruct (process_records c a (S idx) records s1) as [[rs|e] s2] eqn:Hrecs;
      [|done].
    intros [= _ <-].
    rewrite (IH _ _ _ Hrecs), (process_record_stdout _ _ _ _ _ _ _ Hrec).
    rewrite <-app_assoc. f_equal.
    destruct (bool_decide (idx < 5)) eqn:Hidx.
    + apply bool_decide_eq_true_1 in Hidx.
      replace (5 - idx) with (S (5 - S idx)) by lia. done.
    + apply bool_decide_eq_false_1 in Hidx.
      replace (5 - idx) with 0 by lia. replace (5 - S idx) with 0 by lia.
      done.
Qed.

(** X18: A run of the ANLI task that ends normally has printed the input context
    of the first five records and of no other, with the conditioning input
    and its mask where the record has one. *)
Theorem main_prints_the_first_five_contexts c a s input_file :
  args_input_file a = Some input_file → args_task a = Some "anli" →
  (main c a s).1 = Ok tt →
  io_stdout (main c a s).2
  = io_stdout s
    ++ (take 5 (read_jsonl_lines c input_file) ≫= λ record,
          if bool_decide (args_model_type a = "gpt2_for_anli_comet") then
            PrintContext (record_to_text_tokens_with_comet_pred c record).1.1
            :: match (record_to_text_tokens_with_comet_pred c record).1.2 with
               | Some ci =>
                   [PrintCometInput ci;
                    PrintCometMask
                      (record_to_text_tokens_with_comet_pred c record).2]
               | None => []
               end
          else [PrintContext (anli_record_to_gpt_prompt c record)]).
Proof.
  intros Hin Htask. unfold main, main_driver. simpl. rewrite Hin, Htask. simpl.
  unfold bind, write_items.
  match goal with |- context [process_records c ?a' 0 ?rs s] =>
    pose proof (process_records_stdout c a' 0 rs s) as Hout;
    destruct (process_records c a' 0 rs s) as [[records'|e] s1]
  end; simpl in *; [|done].
  intros _. by rewrite (Hout _ _ eq_refl).
Qed.
End generation_driver_prints.

(** ** The drivers at work on the instance *)

Section driver_examples.
Import QTorch DriverExamples.

Lemma filtering_composes_top_k_then_top_p_witness :
  top_k_top_p_filtering 1%positive 2 (Fin (1 # 2)) NegInf heap0
  = (l' <- top_k_top_p_filtering 1%positive 2 (Fin 0) NegInf ;;
     top_k_top_p_filtering l' 0 (Fin (1 # 2)) NegInf) heap0.
Proof.
  apply (filtering_composes_top_k_then_top_p (T := torch) heap0 1%positive logits0).
  reflexivity.
Defined.


Lemma sample_sequence_without_steps_witness :
  sample_sequence (constant_model 2) 0 [5; 9]%Z 3 (Fin 1) 0 (Fin 0) false
    None None world0
  = (Ok (replicate (Z.to_nat 3) [5; 9]%Z), world0).
Proof.
  apply (sample_sequence_without_steps (T := torch)); [lia | lia | by left].
Defined.

(** The constant model scores every row that has a token. *)
Lemma constant_model_scores vocab kwargs r :
  kwargs !! "input_ids" = Some (LongTensor2 [r]) → r ≠ [] → vocab ≠ O →
  ∃ b0 rest v,
    constant_model vocab kwargs = Ok (b0 :: rest) ∧ last b0 = Some v ∧ v ≠ [].
Proof.
  intros Hids Hr Hvocab. unfold constant_model. rewrite Hids.
  exists (map (λ _, replicate vocab (Fin 0)) r), [], (replicate vocab (Fin 0)).
  split; [done|]. split.
  - destruct r as [|z r _] using rev_ind; [done|].
    rewrite map_app. simpl. apply last_snoc.
  - by destruct vocab.
Defined.

(** One token can always be drawn from the uniform distribution. *)
Lemma qmultinomial_softmax_one (v : list xq) (g : nat) :
  v ≠ [] → ∃ t g', qmultinomial (qsoftmax v) 1 g = (Ok [t], g').
Proof.
  destruct v as [|x v]; [done|]. intros _.
  exists 0%Z, (S g). unfold qmultinomial.
  assert (∃ rest, support (qsoftmax (x :: v)) = 0%Z :: rest) as [rest ->].
  { unfold support, qsoftmax. simpl. by eexists. }
  change (length (0%Z :: rest)) with (S (length rest)).
  destruct (Z.leb_spec 1 0) as [?|_]; [lia|].
  destruct (Z.ltb_spec (Z.of_nat (S (length rest))) 1) as [?|_]; [lia|].
  reflexivity.
Defined.

Lemma sample_sequence_single_sample_returns_witness :
  ∃ tokens w' evs,
    sample_sequence (constant_model 2) 2 [5; 9]%Z 1 (Fin 1) 0 (Fin 0) false
      None None world0
    = (Ok [[5; 9]%Z ++ tokens], w')
    ∧ length tokens = Z.to_nat 2
    ∧ trace w' = trace world0 ++ evs
    ∧ length evs = 2 * Z.to_nat 2.
Proof.
  apply (sample_sequence_single_sample_returns (T := torch)).
  - intros kwargs r Hids Hr. by apply (constant_model_scores 2 kwargs r).
  - exact qmultinomial_softmax_one.
  - by left.
  - by left.
Defined.

Lemma prompt_to_gen_returns_the_generated_tokens_witness :
  args_num_samples (args0 "gpt2_for_anli" 1) = 1%Z
  ∧ ∃ tokens evs,
      (prompt_to_gen collab (args0 "gpt2_for_anli" 1) "ab" None None world0).1
      = Ok (tokenizer_decode collab tokens)
      ∧ length tokens = Z.to_nat (args_length (args0 "gpt2_for_anli" 1))
      ∧ trace (prompt_to_gen collab (args0 "gpt2_for_anli" 1) "ab" None None
                 world0).2
        = trace world0 ++ evs
      ∧ length evs = 2 * Z.to_nat (args_length (args0 "gpt2_for_anli" 1)).
Proof.
  apply (prompt_to_gen_returns_the_generated_tokens (T := torch)).
  - simpl. lia.
  - vm_compute. reflexivity.
Defined.

Lemma main_samples_for_the_anli_task_only_witness :
  io_world (main collab (args0 "xlnet" 1) io0).2 = io_world io0
  ∧ io_stdout (main collab (args0 "xlnet" 1) io0).2 = io_stdout io0
  ∧ ((main collab (args0 "xlnet" 1) io0).1 = Raise TypeError
     ∧ io_written (main collab (args0 "xlnet" 1) io0).2 = io_written io0
     ∨ (main collab (args0 "xlnet" 1) io0).1 = Ok tt
       ∧ (io_written (main collab (args0 "xlnet" 1) io0).2 = io_written io0
          ∨ io_written (main collab (args0 "xlnet" 1) io0).2
            = io_written io0 ++ [([], args_output_file (args0 "xlnet" 1))])).
Proof.
  apply (main_samples_for_the_anli_task_only (T := torch)).
  intros (_ & _ & Hin). simpl in Hin.
  apply elem_of_cons in Hin as [Hin|Hin]; [discriminate Hin|].
  apply elem_of_cons in Hin as [Hin|Hin]; [discriminate Hin|].
  by apply elem_of_nil in Hin.
Defined.

Lemma main_writes_all_records_or_nothing_witness :
  ((main collab (args0 "gpt2_for_anli" 1) io0).1 = Ok tt →
   ∃ records',
     io_written (main collab (args0 "gpt2_for_anli" 1) io0).2
     = io_written io0
       ++ [(map (json_dumps collab) records',
            args_output_file (args0 "gpt2_for_anli" 1))]
     ∧ Forall2
         (λ record record',
            rec_fields record' = rec_fields record
            ∧ ∃ generations gen,
                rec_generations record' = Some generations
                ∧ od_get generations (args_model_type (args0 "gpt2_for_anli" 1))
                  = Some [gen]
                ∧ (∀ k, k ≠ args_model_type (args0 "gpt2_for_anli" 1) →
                        od_get generations k
                        = od_get (from_option id [] (rec_generations record)) k)
                ∧ (args_model_type (args0 "gpt2_for_anli" 1) = "gpt2_for_anli" →
                   str_find "."%char gen = (-1)%Z))
         (read_jsonl_lines collab "in.jsonl") records')
  ∧ (∀ e, (main collab (args0 "gpt2_for_anli" 1) io0).1 = Raise e →
          io_written (main collab (args0 "gpt2_for_anli" 1) io0).2
          = io_written io0).
Proof.
  apply (main_writes_all_records_or_nothing (T := torch)); reflexivity.
Defined.

Lemma eval_groups_by_source_witness :
  ∃ gts res,
    EvalDriver.eval scores_ok "gpt2" sources0 references0 predictions0
      (QGEvalCap.State Q [] [] [])
    = match QGEvalCap.evaluate Q _ _ scores_ok "gpt2" gts res
              (QGEvalCap.State Q [] [] []) with
      | (Ok output, st') => (EvalDriver.Return output, st')
      | (Raise e, st') => (EvalDriver.Throw (EvalDriver.Builtin e), st')
      end
    ∧ res.*1 = gts.*1
    ∧ (∀ k, k ∈ gts.*1 ↔ k ∈ sources0)
    ∧ (∀ k, od_get gts k
            = if decide (k ∈ sources0)
              then Some (filter (λ sr, sr.1 = k) (zip sources0 references0)).*2
              else None)
    ∧ (∀ k, od_get res k
            = last (filter (λ sp, sp.1 = k) (zip sources0 predictions0)).*2).
Proof.
  apply (eval_groups_by_source scores_ok "gpt2" sources0 references0 predictions0);
    [reflexivity | simpl; lia].
Defined.

Lemma preprocess_tables_fit_witness :
  [("gpt2", [("a", "b")])].*1 = [("gpt2", ["h1"])].*1
  ∧ [("gpt2", [["gen"]])].*1 = [("gpt2", ["h1"])].*1
  ∧ (∀ key s r p,
       od_get [("gpt2", [("a", "b")])] key = Some s →
       od_get [("gpt2", ["h1"])] key = Some r →
       od_get [("gpt2", [["gen"]])] key = Some p →
       length s = length r ∧ length p = length r)
  ∧ (∀ ks, EvalDriver.keys_list (Some ["gpt2"]) generations0
           = EvalDriver.Return ks →
           ∀ key, key ∈ [("gpt2", ["h1"])].*1 ↔ key ∈ ks).
Proof.
  apply (preprocess_tables_fit generations0 (Some ["gpt2"])).
  reflexivity.
Defined.

Lemma script_fails_only_in_the_aggregator_witness :
  ∃ err key gts res st0,
    EvalDriver.Builtin ModelError = EvalDriver.Builtin err
    ∧ (QGEvalCap.evaluate Q (list (string * string * list string))
         (list (string * string * list string)) meteor_raises key gts res
         st0).1 = Raise err.
Proof.
  apply (script_fails_only_in_the_aggregator meteor_raises generations0
           (Some ["gpt2"])
           ([("gpt2", [("a", "b")])], [("gpt2", ["h1"])], [("gpt2", [["gen"]])])
           (QGEvalCap.State Q [] [] [])).
  - reflexivity.
  - vm_compute. reflexivity.
Defined.

Lemma evaluate_records_all_scores_witness :
  QGEvalCap.evaluate Q unit unit all_succeed "gpt2" tt tt
    (QGEvalCap.State Q [] [] [])
  = (Ok (replicate 8 (1 # 2)%Q),
     QGEvalCap.State Q
       ([] ++ [QGEvalCap.Bleu 4; QGEvalCap.Meteor; QGEvalCap.Rouge;
               QGEvalCap.Cider; QGEvalCap.BertScore])
       ([] ++ [("Bleu_1", 1 # 2); ("Bleu_2", 1 # 2); ("Bleu_3", 1 # 2);
               ("Bleu_4", 1 # 2); ("METEOR", 1 # 2); ("ROUGE_L", 1 # 2);
               ("CIDEr", 1 # 2); ("Bert Score", 1 # 2)]%Q)
       ([] ++ [[("model_key", QGEvalCap.JStr Q "gpt2");
                ("Bleu_1", QGEvalCap.JStrOf Q (1 # 2));
                ("Bleu_2", QGEvalCap.JStrOf Q (1 # 2));
                ("Bleu_3", QGEvalCap.JStrOf Q (1 # 2));
                ("Bleu_4", QGEvalCap.JStrOf Q (1 # 2));
                ("METEOR", QGEvalCap.JNum Q (1 # 2));
                ("ROUGE_L", QGEvalCap.JNum Q (1 # 2));
                ("CIDEr", QGEvalCap.JNum Q (1 # 2));
                ("Bert Score", QGEvalCap.JNum Q (1 # 2))]])).
Proof.
  apply (evaluate_records_all_scores all_succeed "gpt2" tt tt
           (QGEvalCap.State Q [] [] [])
           (1 # 2)%Q (1 # 2)%Q (1 # 2)%Q (1 # 2)%Q
           (QGEvalCap.PyList Q []) (QGEvalCap.PyList Q [])
           (QGEvalCap.PyList Q []) (QGEvalCap.PyList Q [])
           (1 # 2)%Q (QGEvalCap.PyList Q []) (1 # 2)%Q (QGEvalCap.PyList Q [])
           (1 # 2)%Q (QGEvalCap.PyList Q []) (1 # 2)%Q (QGEvalCap.PyList Q []));
    reflexivity.
Defined.

Lemma preprocess_collects_by_key_witness :
  [("gpt2", ["h1"])].*1 = ["gpt2"]
  ∧ ∀ key, key ∈ ["gpt2"] →
      od_get [("gpt2", [["gen"]])] key
      = Some (omap (λ e, EvalDriver.elem_generations e ≫= λ g, od_get g key)
                generations0)
      ∧ od_get [("gpt2", ["h1"])] key
        = Some (omap (λ e, (EvalDriver.elem_generations e
                            ≫= λ g, od_get g key) ≫= λ _,
                           od_get (EvalDriver.elem_fields e) "label" ≫= λ label,
                           od_get (EvalDriver.elem_fields e) ("hyp" +:+ label))
                  generations0)
      ∧ od_get [("gpt2", [("a", "b")])] key
        = Some (omap (λ e, (EvalDriver.elem_generations e
                            ≫= λ g, od_get g key) ≫= λ _,
                           od_get (EvalDriver.elem_fields e) "obs1" ≫= λ obs1,
                           od_get (EvalDriver.elem_fields e) "obs2" ≫= λ obs2,
                           Some (obs1, obs2))
                  generations0).
Proof.
  apply (preprocess_collects_by_key generations0 (Some ["gpt2"]) ["gpt2"]);
    [reflexivity | reflexivity | apply NoDup_singleton].
Defined.

Lemma script_writes_one_line_per_key_witness :
  ∃ lines,
    QGEvalCap.results_file Q
      (EvalDriver.script scores_ok generations0 (Some ["gpt2"])
         (QGEvalCap.State Q [] [] [])).2
    = [] ++ lines
    ∧ head <$> lines
      = (λ key, Some ("model_key", QGEvalCap.JStr Q key)) <$> ["gpt2"]
    ∧ QGEvalCap.calls Q
        (EvalDriver.script scores_ok generations0 (Some ["gpt2"])
           (QGEvalCap.State Q [] [] [])).2
      = [] ++ (["gpt2"] ≫= λ _, [QGEvalCap.Bleu 4; QGEvalCap.Meteor;
                                 QGEvalCap.Rouge; QGEvalCap.Cider;
                                 QGEvalCap.BertScore]).
Proof.
  apply (script_writes_one_line_per_key scores_ok generations0 (Some ["gpt2"])
           ([("gpt2", [("a", "b")])], [("gpt2", ["h1"])], [("gpt2", [["gen"]])])
           (QGEvalCap.State Q [] [] [])).
  - reflexivity.
  - vm_compute. reflexivity.
Defined.

Lemma main_prints_the_first_five_contexts_witness :
  io_stdout (main collab (args0 "gpt2_for_anli" 1) io0).2
  = io_stdout io0
    ++ (take 5 (read_jsonl_lines collab "in.jsonl") ≫= λ record,
          if bool_decide (args_model_type (args0 "gpt2_for_anli" 1)
                          = "gpt2_for_anli_comet") then
            PrintContext
              (record_to_text_tokens_with_comet_pred collab record).1.1
            :: match (record_to_text_tokens_with_comet_pred collab record).1.2
               with
               | Some ci =>
                   [PrintCometInput ci;
                    PrintCometMask
                      (record_to_text_tokens_with_comet_pred collab record).2]
               | None => []
               end
          else [PrintContext (anli_record_to_gpt_prompt collab record)]).
Proof.
  apply (main_prints_the_first_five_contexts (T := torch));
    [reflexivity | reflexivity | vm_compute; reflexivity].
Defined.
End driver_examples.
